(** * Retrieval-augmented answering pipeline: chunking, retrieval, answering

    A shallow embedding of [ingest.py] (the chunker and the per-document
    indexing step) and of [rag.py] (input sanitising, retrieval
    post-processing, the generation client and the [answer] orchestrator),
    with the properties of the pipeline proved over it.

    Python strings are sequences of Unicode code points: a character is a
    code point in [N] and a string is a [list N].  Literals of the source are
    written as UTF-8 string literals and decoded by [utf8]. *)

From Stdlib Require Import ZArith NArith QArith Lia Lqa.
From Stdlib Require Import Strings.String Strings.Byte Numbers.DecimalString Numbers.DecimalPos.
From stdpp Require Import gmap list.

Local Open Scope Z_scope.

(** ** Python strings *)

Module Text.

Abbreviation text := (list N).

(** Decoding of the UTF-8 bytes of a literal into code points. *)
Fixpoint utf8_decode (bs : list N) : text :=
  match bs with
  | [] => []
  | b :: rest =>
      if (b <? 128)%N then b :: utf8_decode rest
      else if (b <? 224)%N then
        match rest with
        | b1 :: r => ((b - 192) * 64 + (b1 - 128))%N :: utf8_decode r
        | _ => []
        end
      else if (b <? 240)%N then
        match rest with
        | b1 :: b2 :: r =>
            ((b - 224) * 4096 + (b1 - 128) * 64 + (b2 - 128))%N :: utf8_decode r
        | _ => []
        end
      else
        match rest with
        | b1 :: b2 :: b3 :: r =>
            ((b - 240) * 262144 + (b1 - 128) * 4096 + (b2 - 128) * 64
             + (b3 - 128))%N :: utf8_decode r
        | _ => []
        end
  end.

Definition utf8 (s : string) : text :=
  utf8_decode (List.map Byte.to_N (list_byte_of_string s)).

(** [str.isspace] for one character; [str.strip], [str.split] and the regex
    class [\s] of a [str] pattern all use this predicate. *)
Definition is_space (c : N) : bool :=
  ((9 <=? c) && (c <=? 13) || (28 <=? c) && (c <=? 32)
   || (c =? 133) || (c =? 160) || (c =? 5760)
   || (8192 <=? c) && (c <=? 8202) || (c =? 8232) || (c =? 8233)
   || (c =? 8239) || (c =? 8287) || (c =? 12288))%N.

Definition SP : N := 32%N.
Definition NUL : N := 0%N.

(** [len(s)] as a Python int. *)
Definition len {A} (l : list A) : Z := Z.of_nat (length l).

(** Truthiness of a string or list: non-empty. *)
Definition truthy {A} (l : list A) : bool :=
  match l with [] => false | _ => true end.

Fixpoint lstrip (s : text) : text :=
  match s with
  | [] => []
  | c :: s' => if is_space c then lstrip s' else s
  end.

Definition rstrip (s : text) : text := rev (lstrip (rev s)).

(** [s.strip()] *)
Definition strip (s : text) : text := rstrip (lstrip s).

(** [s.split()]: the maximal runs of non-whitespace characters; [cur] is the
    word being scanned. *)
Fixpoint split_from (cur : text) (s : text) : list text :=
  match s with
  | [] => match cur with [] => [] | _ => [cur] end
  | c :: s' =>
      if is_space c then
        match cur with
        | [] => split_from [] s'
        | _ => cur :: split_from [] s'
        end
      else split_from (cur ++ [c]) s'
  end.

Definition split (s : text) : list text := split_from [] s.

(** [sep.join(xs)] *)
Fixpoint join (sep : text) (xs : list text) : text :=
  match xs with
  | [] => []
  | x :: rest =>
      match rest with
      | [] => x
      | _ => x ++ sep ++ join sep rest
      end
  end.

(** [re.sub(r'\x00', '', s)] *)
Definition remove_nul (s : text) : text :=
  List.filter (fun c => negb (c =? NUL)%N) s.

(** [re.sub(r'\s+', ' ', s)]: each maximal whitespace run becomes one space;
    [in_run] tells that the previous character belonged to a run already
    replaced. *)
Fixpoint collapse_from (in_run : bool) (s : text) : text :=
  match s with
  | [] => []
  | c :: s' =>
      if is_space c then
        if in_run then collapse_from true s' else SP :: collapse_from true s'
      else c :: collapse_from false s'
  end.

Definition collapse_spaces (s : text) : text := collapse_from false s.

(** [xs[-n:]] for [0 < n]: the last [n] elements, all of them when there are
    fewer. *)
Definition last_n {A} (n : Z) (xs : list A) : list A :=
  drop (length xs - Z.to_nat n) xs.

Definition blank (s : text) : Prop := Forall (fun c => is_space c = true) s.

(** A word: a non-empty string without whitespace. *)
Definition is_word (w : text) : Prop :=
  w <> [] /\ Forall (fun c => is_space c = false) w.

End Text.

Import Text.

(** ** ingest.py *)

Module Ingest.

Definition CHUNK_WORD_TARGET : Z := 200.
Definition CHUNK_OVERLAP_WORDS : Z := 30.
Definition MIN_CHUNK_WORDS : Z := 15.

(** The class [[.!?।。!?]] of the look-behind of [_sentence_split_re]. *)
Definition is_sentence_end (c : N) : bool :=
  ((c =? 46) || (c =? 33) || (c =? 63) || (c =? 2404) || (c =? 12290))%N.

(** [_sentence_split_re.split(text)]: the text is cut at every maximal
    whitespace run that directly follows a sentence-ending character.  The
    scanner remembers whether the previous character ends a sentence
    ([AfterEnd]), whether it is inside a separator ([InSeparator]), or
    neither ([Inside]); [cur] is the piece being read, reversed. *)
Inductive scan := Inside | AfterEnd | InSeparator.

Definition scan_of (c : N) : scan :=
  if is_sentence_end c then AfterEnd else Inside.

Fixpoint sentence_scan (st : scan) (cur : text) (s : text) : list text :=
  match s with
  | [] => [rev cur]
  | c :: s' =>
      match st with
      | Inside => sentence_scan (scan_of c) (c :: cur) s'
      | AfterEnd =>
          if is_space c then rev cur :: sentence_scan InSeparator [] s'
          else sentence_scan (scan_of c) (c :: cur) s'
      | InSeparator =>
          if is_space c then sentence_scan InSeparator cur s'
          else sentence_scan (scan_of c) (c :: cur) s'
      end
  end.

Definition sentence_split (t : text) : list text := sentence_scan Inside [] t.

(** The variables of the loop of [text_to_chunks]. *)
Record chunker := {
  chunks : list text;
  current_chunk : list text;
  current_word_count : Z
}.

Definition chunker_init : chunker :=
  {| chunks := []; current_chunk := []; current_word_count := 0 |}.

(** [chunks.append(chunk_text)] under [if chunk_text:]. *)
Definition save_chunk (cs : list text) (cur : list text) : list text :=
  let chunk_text := strip (join [SP] cur) in
  if truthy chunk_text then cs ++ [chunk_text] else cs.

(** One iteration of [for sentence in sentences]. *)
Definition chunk_step (target_words overlap : Z) (st : chunker) (sentence : text)
  : chunker :=
  let sentence := strip sentence in
  if negb (truthy sentence) then st
  else
    let words := split sentence in
    let word_count := len words in
    if (current_word_count st + word_count <=? target_words)
       || negb (truthy (current_chunk st))
    then
      {| chunks := chunks st;
         current_chunk := current_chunk st ++ [sentence];
         current_word_count := current_word_count st + word_count |}
    else
      let chunks' := save_chunk (chunks st) (current_chunk st) in
      if 0 <? overlap then
        let all_words := split (join [SP] (current_chunk st)) in
        let overlap_words :=
          if overlap <=? len all_words then last_n overlap all_words
          else all_words in
        {| chunks := chunks';
           current_chunk := [join [SP] overlap_words] ++ [sentence];
           current_word_count := len overlap_words + word_count |}
      else
        {| chunks := chunks';
           current_chunk := [] ++ [sentence];
           current_word_count := 0 + word_count |}.

(** The chunks built by the loop and the closing [if current_chunk:], before
    the short ones are filtered out. *)
Definition built_chunks (t : text) (target_words overlap : Z) : list text :=
  let st := fold_left (chunk_step target_words overlap) (sentence_split t)
              chunker_init in
  if truthy (current_chunk st) then save_chunk (chunks st) (current_chunk st)
  else chunks st.

Definition long_enough (c : text) : bool := MIN_CHUNK_WORDS <=? len (split c).

Definition text_to_chunks (t : text) (target_words overlap : Z) : list text :=
  List.filter long_enough (built_chunks t target_words overlap).

(** A record of the corpus, with the fields [create_rich_text] reads; an
    absent field is the empty string (or list), as [doc.get(key, '')] gives. *)
Record SiteDocument := {
  site : text;
  ville : text;
  description : text;
  periode : text;
  statut : text;
  coordonnees : text;
  details : text;
  monuments : list text;
  horaires : text;
  tarif : text
}.

(** [if value: parts.append(sentence)] *)
Definition part_if {A} (value : list A) (sentence : text) : list text :=
  if truthy value then [sentence] else [].

Definition create_rich_text (doc : SiteDocument) : text :=
  let parts :=
    part_if (site doc) (utf8 "Site archéologique: " ++ site doc ++ utf8 ".")
    ++ part_if (ville doc) (utf8 "Situé à " ++ ville doc ++ utf8 ", Tunisie.")
    ++ part_if (description doc) (description doc)
    ++ part_if (periode doc) (utf8 "Période historique: " ++ periode doc ++ utf8 ".")
    ++ part_if (statut doc)
         (if bool_decide (statut doc = utf8 "UNESCO")
          then utf8 "Ce site est inscrit au patrimoine mondial de l'UNESCO."
          else utf8 "Statut: " ++ statut doc ++ utf8 ".")
    ++ part_if (coordonnees doc)
         (utf8 "Coordonnées GPS: " ++ coordonnees doc ++ utf8 ".")
    ++ part_if (details doc) (details doc)
    ++ part_if (monuments doc)
         (utf8 "Principaux monuments: " ++ join (utf8 ", ") (monuments doc)
          ++ utf8 ".")
    ++ part_if (horaires doc) (utf8 "Horaires: " ++ horaires doc ++ utf8 ".")
    ++ part_if (tarif doc) (utf8 "Tarif: " ++ tarif doc ++ utf8 ".") in
  join [SP] parts.

(** The loop body of [main] for one document, from its enriched text
    [full_text = create_rich_text(doc)] to the chunk texts staged for the
    store: a blank text is skipped, and a text with no chunk is kept whole. *)
Definition document_chunks (full_text : text) : list text :=
  if negb (truthy (strip full_text)) then []
  else
    let chunks := text_to_chunks full_text CHUNK_WORD_TARGET CHUNK_OVERLAP_WORDS in
    if negb (truthy chunks) then [full_text] else chunks.

Definition index_document (doc : SiteDocument) : list text :=
  document_chunks (create_rich_text doc).

(** [to_add_docs] at the end of the loop of [main]. *)
Definition staged_chunks (docs : list SiteDocument) : list text :=
  concat (List.map index_document docs).

End Ingest.

(** ** rag.py *)

Module Rag.

Definition LLM_MODEL : text := utf8 "llama3".
Definition DEFAULT_TOP_K : Z := 5.
Definition MAX_HISTORY_MESSAGES : Z := 6.
Definition MAX_INPUT_LENGTH : Z := 500.

(** Exceptions: the classes the handlers of [generate_response] distinguish,
    and [str(e)]. *)
Inductive exn_class :=
  | Timeout
  | ConnectionError
  | TypeError
  | IndexError
  | OtherException.

Record pyexn := { exn_cls : exn_class; exn_str : text }.

Definition index_error : pyexn :=
  {| exn_cls := IndexError; exn_str := utf8 "list index out of range" |}.
Definition type_error : pyexn :=
  {| exn_cls := TypeError;
     exn_str := utf8 "'NoneType' object is not subscriptable" |}.

(** A computation that returns a value or raises. *)
Inductive res (A : Type) :=
  | Ok (a : A)
  | Raise (e : pyexn).
Arguments Ok {A} a.
Arguments Raise {A} e.

(** *** Input processing *)

(** The values a caller can pass as [query]; [PyObject] stands for a value
    of any other type, with its truth value. *)
Inductive pyval :=
  | PyNone
  | PyBool (b : bool)
  | PyInt (n : Z)
  | PyStr (s : text)
  | PyObject (truth : bool).

Definition py_truthy (v : pyval) : bool :=
  match v with
  | PyNone => false
  | PyBool b => b
  | PyInt n => negb (n =? 0)
  | PyStr s => truthy s
  | PyObject truth => truth
  end.

Definition is_str (v : pyval) : bool :=
  match v with PyStr _ => true | _ => false end.

Definition sanitize_input (query : pyval) : text :=
  if negb (py_truthy query) || negb (is_str query) then []
  else
    match query with
    | PyStr query =>
        let query := take (Z.to_nat MAX_INPUT_LENGTH) (strip query) in
        let query := remove_nul query in
        let query := collapse_spaces query in
        query
    | _ => []
    end.

(** *** Retrieval *)

(** The answer of [collection.query] for the single query embedding: one row
    of documents, metadata and distances per query; a field that was not
    requested is [None]. *)
Record QueryResult := {
  documents : option (list (list text));
  metadatas : option (list (list (gmap text text)));
  distances : option (list (list Q))
}.

Record RetrievedSource := {
  site : text;
  source : text;
  ville : text;
  periode : text;
  coordonnees : text;
  relevance : option Q
}.

(** [meta.get(key, dflt)] *)
Definition meta_get (meta : gmap text text) (key : string) (dflt : string) : text :=
  default (utf8 dflt) (meta !! utf8 key).

(** Python's [round] on an exact value: to the nearest integer, a tie to the
    even one. *)
Definition round_half_even (x : Q) : Z :=
  let n := Qnum x in
  let d := Zpos (Qden x) in
  let q := n / d in
  let r := n mod d in
  if 2 * r <? d then q
  else if d <? 2 * r then q + 1
  else if Z.even q then q else q + 1.

(** [round(x, 3)]; distances and relevances are modelled as exact rationals. *)
Definition round3 (x : Q) : Q := Qmake (round_half_even (x * 1000)) 1000.

(** [round(1 - distance, 3) if distance else None]: a distance of zero is
    falsy, as [None] is. *)
Definition relevance_of (distance : option Q) : option Q :=
  match distance with
  | Some d => if Qeq_bool d 0 then None else Some (round3 (1 - d))
  | None => None
  end.

(** [results['distances'][0][i] if results.get('distances') else None] *)
Definition distance_at (results : QueryResult) (i : nat) : res (option Q) :=
  match distances results with
  | None | Some [] => Ok None
  | Some (row :: _) =>
      match row !! i with
      | Some d => Ok (Some d)
      | None => Raise index_error
      end
  end.

Definition site_of (meta : gmap text text) : text :=
  meta_get meta "site" "Sans titre".

Definition make_source (meta : gmap text text) (distance : option Q)
  : RetrievedSource :=
  {| site := site_of meta;
     source := meta_get meta "source" "inconnu";
     ville := meta_get meta "ville" "";
     periode := meta_get meta "period" "";
     coordonnees := meta_get meta "coordonnees" "";
     relevance := relevance_of distance |}.

(** The variables of the loop of [retrieve_documents]. *)
Record retrieval := {
  context_parts : list text;
  sources : list RetrievedSource;
  seen_sites : gset text
}.

(** The loop over [enumerate(zip(documents, metadatas))], from index [i]. *)
Fixpoint retrieve_loop (results : QueryResult) (i : nat)
    (hits : list (text * gmap text text)) (st : retrieval) : res retrieval :=
  match hits with
  | [] => Ok st
  | (doc_text, meta) :: rest =>
      let parts := context_parts st ++ [strip doc_text] in
      let site_name := site_of meta in
      if bool_decide (site_name ∈ seen_sites st) then
        retrieve_loop results (S i) rest
          {| context_parts := parts; sources := sources st;
             seen_sites := seen_sites st |}
      else
        match distance_at results i with
        | Raise e => Raise e
        | Ok distance =>
            retrieve_loop results (S i) rest
              {| context_parts := parts;
                 sources := sources st ++ [make_source meta distance];
                 seen_sites := {[site_name]} ∪ seen_sites st |}
        end
  end.

(** The part of [retrieve_documents] after the store has answered. *)
Definition process_results (results : QueryResult)
  : res (text * list RetrievedSource) :=
  match documents results with
  | None | Some [] => Ok ([], [])
  | Some (docs :: _) =>
      if negb (truthy docs) then Ok ([], [])
      else
        match metadatas results with
        | None => Raise type_error
        | Some [] => Raise index_error
        | Some (metas :: _) =>
            match retrieve_loop results 0 (zip docs metas)
                    {| context_parts := []; sources := []; seen_sites := ∅ |} with
            | Raise e => Raise e
            | Ok st => Ok (join [10; 10]%N (context_parts st), sources st)
            end
        end
  end.

(** *** The chatbot and the services it calls *)

Record Message := { role : text; content : text }.

(** A call to an external service: the embedding and nearest-neighbour query
    of the store, or the POST to the generation service. *)
Inductive Call :=
  | CallQuery (query : text) (top_k : Z)
  | CallPost (messages : list Message).

(** The chatbot's [conversation_history], and the calls made so far. *)
Record World := {
  conversation_history : list Message;
  calls : list Call
}.

Definition M (A : Type) : Type := World -> res A * World.

#[global] Instance M_ret : MRet M := fun A a w => (Ok a, w).
#[global] Instance M_bind : MBind M := fun A B f m w =>
  match m w with
  | (Ok a, w') => f a w'
  | (Raise e, w') => (Raise e, w')
  end.

Definition lift {A} (r : res A) : M A := fun w => (r, w).

(** [try: body except Exception as e: handler(e)] *)
Definition try_except {A} (body : M A) (handler : pyexn -> M A) : M A :=
  fun w =>
    match body w with
    | (Ok a, w') => (Ok a, w')
    | (Raise e, w') => handler e w'
    end.

Definition get_history : M (list Message) :=
  fun w => (Ok (conversation_history w), w).

Definition set_history (h : list Message) : M unit :=
  fun w => (Ok tt, {| conversation_history := h; calls := calls w |}).

Definition log_call (c : Call) (w : World) : World :=
  {| conversation_history := conversation_history w; calls := calls w ++ [c] |}.

(** The body of a reply of the generation service with status 200, as
    [generate_response] reads it. *)
Record ChatReply := {
  message_content : text;     (* result['message']['content'] *)
  eval_count : option Z       (* result.get('eval_count') *)
}.

(** An HTTP response; [json] raises when the body does not decode, or has no
    [message.content]. *)
Record Response := {
  status_code : Z;
  json : res ChatReply
}.

(** [str(n)] for an int. *)
Definition str_int (n : Z) : text :=
  utf8 (DecimalString.NilZero.string_of_int (Z.to_int n)).

Definition LF : text := [10%N].
Definition QUOTE : text := [34%N].

Definition system_prompt : text :=
  join LF [
    utf8 "Tu es un assistant expert spécialisé sur les sites archéologiques de Tunisie.";
    [];
    utf8 "RÈGLES IMPORTANTES:";
    utf8 "1. Réponds UNIQUEMENT avec les informations du CONTEXTE fourni";
    utf8 "2. Si l'information n'est pas dans le contexte, dis clairement: "
      ++ QUOTE ++ utf8 "Je n'ai pas cette information dans ma base de données."
      ++ QUOTE;
    utf8 "3. Ne jamais inventer ou supposer des informations";
    utf8 "4. Réponds en français de manière claire et professionnelle";
    utf8 "5. Structure tes réponses avec des paragraphes si nécessaire";
    utf8 "6. Mentionne les sources (sites) quand tu donnes des informations";
    utf8 "7. Si on te demande des coordonnées ou localisations, fournis-les si disponibles"
  ].

Definition user_prompt (query context : text) : text :=
  join LF [
    utf8 "CONTEXTE (Base de données des sites archéologiques tunisiens):";
    context;
    [];
    utf8 "QUESTION: " ++ query;
    [];
    utf8 "Réponds de manière précise et informative en te basant uniquement sur le contexte ci-dessus."
  ].

Definition build_messages (query context : text) : M (list Message) :=
  history ← get_history;
  mret ([{| role := utf8 "system"; content := system_prompt |}]
        ++ List.map (fun msg => {| role := role msg; content := content msg |})
             (last_n MAX_HISTORY_MESSAGES history)
        ++ [{| role := utf8 "user"; content := user_prompt query context |}]).

Definition msg_invalid : text := utf8 "❌ Veuillez entrer une question valide.".
Definition msg_no_document : text :=
  utf8 "❌ Aucun document trouvé dans la base de données. Exécutez d'abord: python ingest.py".
Definition msg_model_missing : text :=
  utf8 "❌ Modèle '" ++ LLM_MODEL ++ utf8 "' non trouvé. Exécutez: ollama pull "
  ++ LLM_MODEL.
Definition msg_api_error (code : Z) : text :=
  utf8 "❌ Erreur API (code " ++ str_int code ++ utf8 ")".
Definition msg_timeout : text :=
  utf8 "⏱️ Délai d'attente dépassé. Le modèle prend trop de temps.".
Definition msg_unreachable : text :=
  utf8 "❌ Impossible de se connecter à Ollama. Vérifiez qu'il est lancé avec: ollama serve".
Definition msg_error (e : pyexn) : text := utf8 "❌ Erreur: " ++ exn_str e.

Section Services.

(** The store: the embedding of the query and [collection.query], given the
    calls made before. *)
Variable collection_query : list Call -> text -> Z -> res QueryResult.

(** The generation service: [requests.post], given the calls made before;
    it raises or returns the response and the milliseconds the call took,
    [int((time.time() - start_time) * 1000)]. *)
Variable requests_post : list Call -> list Message -> res (Response * Z).

Definition retrieve_documents (query : text) (top_k : Z)
  : M (text * list RetrievedSource) :=
  fun w =>
    (match collection_query (calls w) query top_k with
     | Raise e => Raise e
     | Ok results => process_results results
     end,
     log_call (CallQuery query top_k) w).

Definition post (messages : list Message) : M (Response * Z) :=
  fun w => (requests_post (calls w) messages, log_call (CallPost messages) w).

Definition generate_response (messages : list Message) : M (text * Z * Z) :=
  try_except
    ('(response, response_time) ← post messages;
     if status_code response =? 200 then
       result ← lift (json response);
       let answer := message_content result in
       let tokens := default 0 (eval_count result) in
       mret (answer, tokens, response_time)
     else if status_code response =? 404 then
       mret (msg_model_missing, 0, response_time)
     else
       mret (msg_api_error (status_code response), 0, response_time))
    (fun e =>
       match exn_cls e with
       | Timeout => mret (msg_timeout, 0, 0)
       | ConnectionError => mret (msg_unreachable, 0, 0)
       | _ => mret (msg_error e, 0, 0)
       end).

Definition answer (query : pyval) (top_k : Z)
  : M (text * list RetrievedSource * Z * Z) :=
  let query := sanitize_input query in
  if negb (truthy query) then mret (msg_invalid, [], 0, 0)
  else
    '(context, sources) ← retrieve_documents query top_k;
    if negb (truthy context) then mret (msg_no_document, [], 0, 0)
    else
      messages ← build_messages query context;
      '(answer, tokens, response_time) ← generate_response messages;
      history ← get_history;
      set_history (history ++ [{| role := utf8 "user"; content := query |}]);;
      history ← get_history;
      set_history (history ++ [{| role := utf8 "assistant"; content := answer |}]);;
      history ← get_history;
      (if MAX_HISTORY_MESSAGES * 2 <? len history
       then set_history (last_n (MAX_HISTORY_MESSAGES * 2) history)
       else mret tt);;
      mret (answer, sources, tokens, response_time).

Definition load_history_from_messages (messages : list Message) : M unit :=
  set_history
    (List.map (fun msg => {| role := role msg; content := content msg |})
       (last_n MAX_HISTORY_MESSAGES messages)).

Definition clear_history : M unit := set_history [].

(** What a caller can do with a chatbot. *)
Inductive Op :=
  | OpAnswer (query : pyval) (top_k : Z)
  | OpLoadHistory (messages : list Message)
  | OpClearHistory.

Definition run_op (op : Op) (w : World) : World :=
  match op with
  | OpAnswer query top_k => snd (answer query top_k w)
  | OpLoadHistory messages => snd (load_history_from_messages messages w)
  | OpClearHistory => snd (clear_history w)
  end.

(** [RAGChatbot.__init__] *)
Definition new_chatbot : World := {| conversation_history := []; calls := [] |}.

(** The chatbot after a sequence of operations. *)
Definition run (ops : list Op) : World :=
  fold_left (fun w op => run_op op w) ops new_chatbot.

End Services.

End Rag.

(** ** The vocabulary of the properties, and sample data *)

Module IngestSpec.
Import Ingest.

(** The last [overlap] words of [c] (all its words when it has fewer) are
    the first words of [d]. *)
Definition overlaps (overlap : Z) (c d : text) : Prop :=
  last_n overlap (split c) `prefix_of` split d.

(** [d] has at least one word more than it shares with [c]. *)
Definition grows (overlap : Z) (c d : text) : Prop :=
  Z.min overlap (len (split c)) + 1 <= len (split d).

(** Every chunk of the list is related to the next one. *)
Definition chained (R : text -> text -> Prop) (cs : list text) : Prop :=
  forall i c d, cs !! i = Some c -> cs !! S i = Some d -> R c d.

Definition cur_words (st : chunker) : list text :=
  split (join [SP] (current_chunk st)).

(** The invariant of the loop of [text_to_chunks], for [0 < overlap]. *)
Record inv (overlap : Z) (st : chunker) : Prop := {
  inv_count : current_word_count st = len (cur_words st);
  inv_pos : current_chunk st <> [] -> 1 <= current_word_count st;
  inv_chain : chained (overlaps overlap) (chunks st);
  inv_last : forall c, last (chunks st) = Some c ->
             last_n overlap (split c) `prefix_of` cur_words st;
  inv_grows : chained (grows overlap) (chunks st);
  inv_cur_grows : forall c, last (chunks st) = Some c ->
                  Z.min overlap (len (split c)) + 1 <= current_word_count st
}.

Definition sample_s1 : text := utf8 "a b c d e f g h i j k l m n o p.".
Definition sample_s2 : text := utf8 "q r s t u.".
Definition sample_s3 : text := utf8 "A B C D E F G H I J K L M N O P.".

(** Three sentences of 16, 5 and 16 words. *)
Definition sample_text : text :=
  sample_s1 ++ [SP] ++ sample_s2 ++ [SP] ++ sample_s3.

(** A sentence of [n] times the word [w]. *)
Definition sentence_of (n : nat) (w : string) : text :=
  join [SP] (replicate n (utf8 w)) ++ utf8 ".".

(** Two sentences of 150 and 100 words. *)
Definition long_text : text :=
  sentence_of 150 "site" ++ [SP] ++ sentence_of 100 "ruine".

Definition long_chunk_0 : text := sentence_of 150 "site".
Definition long_chunk_1 : text :=
  join [SP] (replicate 29 (utf8 "site")) ++ utf8 " site. " ++ sentence_of 100 "ruine".

(** Sentences of 199, 2 and 199 words. *)
Definition wide_text : text :=
  sentence_of 199 "site" ++ [SP] ++ utf8 "El Jem." ++ [SP] ++ sentence_of 199 "ruine".

(** A record with no field. *)
Definition empty_doc : SiteDocument :=
  {| site := []; ville := []; description := []; periode := [];
     statut := []; coordonnees := []; details := []; monuments := [];
     horaires := []; tarif := [] |}.

(** A record with its site name only. *)
Definition small_doc : SiteDocument :=
  {| site := utf8 "Dougga"; ville := []; description := []; periode := [];
     statut := []; coordonnees := []; details := []; monuments := [];
     horaires := []; tarif := [] |}.

End IngestSpec.

Module RagSpec.
Import Rag.

(** No whitespace character follows a whitespace character; [prev] tells
    whether the character before [s] is one. *)
Fixpoint single_spaced (prev : bool) (s : text) : Prop :=
  match s with
  | [] => True
  | c :: s' => (is_space c = true -> prev = false) /\ single_spaced (is_space c) s'
  end.

(** The hits of a result: the documents of the first row, each with its
    metadata. *)
Definition hits_of (results : QueryResult) : list (text * gmap text text) :=
  match documents results, metadatas results with
  | Some (docs :: _), Some (metas :: _) => zip docs metas
  | _, _ => []
  end.

(** Hit [i] has metadata [meta], and no hit before it has the same site. *)
Definition first_hit (hits : list (text * gmap text text)) (i : nat)
    (meta : gmap text text) : Prop :=
  (exists doc, hits !! i = Some (doc, meta)) /\
  forall j doc' meta', (j < i)%nat -> hits !! j = Some (doc', meta') ->
                       site_of meta' <> site_of meta.

(** The source [s] was made from hit [i], the first one of its site. *)
Definition picked_from (hits : list (text * gmap text text))
    (results : QueryResult) (i : nat) (s : RetrievedSource) : Prop :=
  exists meta d,
    first_hit hits i meta /\ distance_at results i = Ok d /\ s = make_source meta d.

Definition increasing (idx : list nat) : Prop :=
  forall a b x y, (a < b)%nat -> idx !! a = Some x -> idx !! b = Some y -> (x < y)%nat.

(** The distances of a row do not decrease: the hits are in similarity
    order. *)
Definition ascending (row : list Q) : Prop :=
  forall a b x y, (a <= b)%nat -> row !! a = Some x -> row !! b = Some y -> (x <= y)%Q.

Record loop_inv (results : QueryResult) (hits pre : list (text * gmap text text))
    (st : retrieval) : Prop := {
  li_seen : forall x, x ∈ seen_sites st <->
                      exists doc meta, (doc, meta) ∈ pre /\ site_of meta = x;
  li_sites : forall x, x ∈ seen_sites st <-> x ∈ site <$> sources st;
  li_nodup : NoDup (site <$> sources st);
  li_parts : context_parts st = (fun h => strip (fst h)) <$> pre;
  li_idx : exists idx, increasing idx /\
                       Forall (fun i => (i < length pre)%nat) idx /\
                       Forall2 (picked_from hits results) idx (sources st)
}.

(** The message of the handler of [generate_response] that catches [e]. *)
Definition handled_message (e : pyexn) : text :=
  match exn_cls e with
  | Timeout => msg_timeout
  | ConnectionError => msg_unreachable
  | _ => msg_error e
  end.

Definition handled (e : pyexn) : text * Z * Z := (handled_message e, 0, 0).

(** The messages [build_messages] makes from a history. *)
Definition prompt_messages (history : list Message) (query context : text)
  : list Message :=
  [{| role := utf8 "system"; content := system_prompt |}]
  ++ List.map (fun msg => {| role := role msg; content := content msg |})
       (last_n MAX_HISTORY_MESSAGES history)
  ++ [{| role := utf8 "user"; content := user_prompt query context |}].

(** The history after an exchange. *)
Definition history_after (history : list Message) (query answer : text)
  : list Message :=
  let h := (history ++ [{| role := utf8 "user"; content := query |}])
           ++ [{| role := utf8 "assistant"; content := answer |}] in
  if MAX_HISTORY_MESSAGES * 2 <? len h
  then last_n (MAX_HISTORY_MESSAGES * 2) h else h.

(** Three hits, the first two of the same site, at distances 1/4, 1/2 and
    3/2. *)
Definition sample_results : QueryResult :=
  {| documents :=
       Some [[utf8 "Dougga est un site antique.";
              utf8 " Le capitole de Dougga. ";
              utf8 "El Jem possède un amphithéâtre."]];
     metadatas :=
       Some [[list_to_map [(utf8 "site", utf8 "Dougga");
                           (utf8 "ville", utf8 "Téboursouk")];
              list_to_map [(utf8 "site", utf8 "Dougga")];
              list_to_map [(utf8 "site", utf8 "El Jem")]]];
     distances := Some [[1 # 4; 1 # 2; 3 # 2]]%Q |}.



Definition sample_store (results : QueryResult)
  : list Call -> text -> Z -> res QueryResult :=
  fun _ _ _ => Ok results.

(** A generation service that cannot be reached. *)
Definition offline_service : list Call -> list Message -> res (Response * Z) :=
  fun _ _ =>
    Raise {| exn_cls := ConnectionError; exn_str := utf8 "Connection refused" |}.

Definition dougga_source : RetrievedSource :=
  {| site := utf8 "Dougga"; source := utf8 "inconnu"; ville := utf8 "Téboursouk";
     periode := []; coordonnees := []; relevance := Some (750 # 1000)%Q |}.

Definition el_jem_source : RetrievedSource :=
  {| site := utf8 "El Jem"; source := utf8 "inconnu"; ville := [];
     periode := []; coordonnees := []; relevance := Some (Qmake (-500) 1000) |}.


Definition sample_context : text :=
  utf8 "Dougga est un site antique." ++ [10; 10]%N
  ++ utf8 "Le capitole de Dougga." ++ [10; 10]%N
  ++ utf8 "El Jem possède un amphithéâtre.".

Definition sample_query : text := utf8 "Où est El Jem?".

(** The answer of the store is well formed: when there are documents there
    is a row of metadata, and a row of distances, when present, has a
    distance for every hit. *)
Definition well_formed (results : QueryResult) : Prop :=
  match documents results with
  | Some ((_ :: _) :: _) =>
      (exists metas rest, metadatas results = Some (metas :: rest)) /\
      match distances results with
      | None | Some [] => True
      | Some (row :: _) => (length (hits_of results) <= length row)%nat
      end
  | _ => True
  end.


(** The chatbot after the sample question was answered while the generation
    service was unreachable. *)
Definition sample_world_after : World :=
  {| conversation_history :=
       [{| role := utf8 "user"; content := sample_query |};
        {| role := utf8 "assistant"; content := msg_unreachable |}];
     calls :=
       [CallQuery sample_query 5;
        CallPost (prompt_messages [] sample_query sample_context)] |}.

End RagSpec.

(** ** ingest.py: reading the corpus, staging and inserting the chunks *)

Module Corpus.
Import Ingest.

(** *** [read_corpus] *)

Section ReadCorpus.

Context {D : Type}.

(** [json.loads(line)]: the record, or [str(e)] of the [JSONDecodeError]. *)
Variable json_loads : text -> text + D.

(** The list [docs] and the lines printed so far. *)
Record reader := { docs : list D; printed : list text }.

Definition json_warning (line_num : nat) (e : text) : text :=
  utf8 "⚠️ Ligne " ++ Rag.str_int (Z.of_nat line_num) ++ utf8 ": Erreur JSON - " ++ e.

(** The body of [for line_num, line in enumerate(f, 1)]. *)
Definition read_line (st : reader) (line_num : nat) (line : text) : reader :=
  let line := strip line in
  if negb (truthy line) then st
  else
    match json_loads line with
    | inr doc => {| docs := docs st ++ [doc]; printed := printed st |}
    | inl e =>
        {| docs := docs st; printed := printed st ++ [json_warning line_num e] |}
    end.

Fixpoint read_lines (line_num : nat) (lines : list text) (st : reader) : reader :=
  match lines with
  | [] => st
  | line :: rest => read_lines (S line_num) rest (read_line st line_num line)
  end.

(** [read_corpus(path)], from the lines of the file. *)
Definition read_corpus (lines : list text) : reader :=
  read_lines 1 lines {| docs := []; printed := [] |}.

End ReadCorpus.

(** *** The loop of [main] *)

(** The value of [doc.get("id", global_chunk_id)]: an int or a string. *)
Inductive doc_id :=
  | IdInt (n : Z)
  | IdStr (s : text).

(** [str(doc_id)] *)
Definition str_id (d : doc_id) : text :=
  match d with
  | IdInt n => Rag.str_int n
  | IdStr s => s
  end.

(** A record of the corpus as [main] reads it: the fields of the enriched
    text, and [id], [source] and [keywords]. *)
Record CorpusRecord := {
  rec_fields : SiteDocument;
  rec_id : option doc_id;
  rec_source : text;
  rec_keywords : list text
}.

(** The [metadata] dict of a chunk. *)
Definition chunk_metadata (id : doc_id) (doc : CorpusRecord) : gmap text text :=
  list_to_map
    [(utf8 "source_id", str_id id);
     (utf8 "site", site (rec_fields doc));
     (utf8 "ville", ville (rec_fields doc));
     (utf8 "period", periode (rec_fields doc));
     (utf8 "statut", statut (rec_fields doc));
     (utf8 "source", rec_source doc);
     (utf8 "coordonnees", coordonnees (rec_fields doc));
     (utf8 "keywords", join (utf8 ", ") (rec_keywords doc))].

(** [f"{doc_id}::chunk_{i}"] *)
Definition chunk_uid_of (id : doc_id) (i : nat) : text :=
  str_id id ++ utf8 "::chunk_" ++ Rag.str_int (Z.of_nat i).

Section Staging.

Context {E : Type}.

(** The embedding of one chunk; [embedder.encode(chunks)] embeds each text
    of the batch. *)
Variable embed : text -> E.

(** One entry of the parallel lists [to_add_ids], [to_add_docs],
    [to_add_metadatas] and [to_add_embeddings]. *)
Record StagedChunk := {
  chunk_uid : text;
  chunk_text : text;
  chunk_meta : gmap text text;
  chunk_embedding : E
}.

Record indexer := {
  to_add : list StagedChunk;
  global_chunk_id : Z
}.

(** The loop [for i, chunk_text in enumerate(chunks)], from index [i]. *)
Fixpoint stage_chunks (id : doc_id) (doc : CorpusRecord) (i : nat)
    (chunks : list text) (st : indexer) : indexer :=
  match chunks with
  | [] => st
  | chunk :: rest =>
      stage_chunks id doc (S i) rest
        {| to_add := to_add st
                     ++ [{| chunk_uid := chunk_uid_of id i;
                            chunk_text := chunk;
                            chunk_meta := chunk_metadata id doc;
                            chunk_embedding := embed chunk |}];
           global_chunk_id := global_chunk_id st + 1 |}
  end.

(** The body of [for doc in docs]. *)
Definition stage_document (st : indexer) (doc : CorpusRecord) : indexer :=
  let id := default (IdInt (global_chunk_id st)) (rec_id doc) in
  let full_text := create_rich_text (rec_fields doc) in
  if negb (truthy (strip full_text)) then st
  else
    let chunks := text_to_chunks full_text CHUNK_WORD_TARGET CHUNK_OVERLAP_WORDS in
    let chunks := if negb (truthy chunks) then [full_text] else chunks in
    stage_chunks id doc 0 chunks st.

Definition stage_all (docs : list CorpusRecord) : indexer :=
  fold_left stage_document docs {| to_add := []; global_chunk_id := 0 |}.

End Staging.

(** *** The batch insertion *)

Definition BATCH_SIZE : nat := 500.

(** [range(0, n, BATCH_SIZE)] *)
Definition batch_starts (n : nat) : list nat :=
  List.map (fun k => (k * BATCH_SIZE)%nat)
    (seq 0 ((n + BATCH_SIZE - 1) / BATCH_SIZE)%nat).

(** [l[i:j]] for [0 <= i] and [0 <= j]. *)
Definition slice {A} (i j : nat) (l : list A) : list A :=
  take (j - i) (drop i l).

(** The lists passed to the successive [collection.add] calls. *)
Definition batches {A} (l : list A) : list (list A) :=
  List.map (fun i => slice i (Nat.min (i + BATCH_SIZE) (length l)) l)
    (batch_starts (length l)).

End Corpus.

(** ** rag.py: language and service status *)

Module Status.
Import Rag.

(** The class [[\u0600-\u06FF]] of [arabic_pattern]. *)
Definition is_arabic (c : N) : bool := ((1536 <=? c) && (c <=? 1791))%N.

Definition detect_language (t : text) : text :=
  if existsb is_arabic t then utf8 "ar" else utf8 "fr".

(** [p] is at the start of [s]. *)
Fixpoint starts_with (p s : text) : bool :=
  match p, s with
  | [], _ => true
  | _ :: _, [] => false
  | a :: p', b :: s' => (a =? b)%N && starts_with p' s'
  end.

(** [needle in hay], for strings. *)
Fixpoint str_in (needle hay : text) : bool :=
  starts_with needle hay
  || match hay with
     | [] => false
     | _ :: hay' => str_in needle hay'
     end.

(** What the handlers of [check_ollama_status] tell apart: a
    [ConnectionError] (or a subclass of it) and any other exception, each
    with [str(e)]. *)
Inductive get_exn :=
  | GetConnectionError (str_e : text)
  | GetOtherError (str_e : text).

(** The response to [GET /api/tags]: [tags_json] is [response.json()],
    which raises with a message, or gives an object with or without a
    [models] list, whose entries have a [name] or not. *)
Record TagsResponse := {
  tags_status : Z;
  tags_json : text + option (list (option text))
}.

(** The dict returned by [check_ollama_status], by its [status]. *)
Inductive OllamaStatus :=
  | StatusOnline (models : list text) (current_model : text)
      (model_available : bool)
  | StatusError (message : text)
  | StatusOffline (message : text).

(** [[m["name"] for m in models]]: a missing key raises [KeyError('name')]. *)
Fixpoint model_names (models : list (option text)) : get_exn + list text :=
  match models with
  | [] => inr []
  | None :: _ => inl (GetOtherError (utf8 "'name'"))
  | Some name :: rest =>
      match model_names rest with
      | inr names => inr (name :: names)
      | inl e => inl e
      end
  end.

(** The body of the [try]. *)
Definition check_body (outcome : get_exn + TagsResponse) : get_exn + OllamaStatus :=
  match outcome with
  | inl e => inl e
  | inr response =>
      if tags_status response =? 200 then
        match tags_json response with
        | inl e => inl (GetOtherError e)
        | inr body =>
            let models := default [] body in
            match model_names models with
            | inl e => inl e
            | inr names =>
                inr (StatusOnline names LLM_MODEL
                       (existsb (str_in LLM_MODEL) names))
            end
        end
      else inr (StatusError (utf8 "HTTP " ++ str_int (tags_status response)))
  end.

(** [check_ollama_status()], from the outcome of [requests.get]. *)
Definition check_ollama_status (outcome : get_exn + TagsResponse) : OllamaStatus :=
  match check_body outcome with
  | inr status => status
  | inl (GetConnectionError _) =>
      StatusOffline (utf8 "Ollama n'est pas en cours d'exécution")
  | inl (GetOtherError e) => StatusError e
  end.

End Status.

(** ** app.py and database.py: chat titles *)

Module App.

(** [l[:k]]: a negative [k] counts from the end. *)
Definition prefix_to {A} (k : Z) (l : list A) : list A :=
  if 0 <=? k then take (Z.to_nat k) l
  else take (length l - Z.to_nat (- k)) l.

Definition truncate_title (title : text) (max_len : Z) : text :=
  if max_len <? len title then prefix_to (max_len - 3) title ++ utf8 "..."
  else title.

(** The title given to a chat from its first question:
    [query[:50] + "..." if len(query) > 50 else query]. *)
Definition chat_title (query : text) : text :=
  if 50 <? len query then prefix_to 50 query ++ utf8 "..." else query.

(** The title bound to the UPDATE of [update_chat_title]: [title[:100]]. *)
Definition stored_title (title : text) : text := prefix_to 100 title.

End App.

(** ** More vocabulary *)

Module MoreSpec.
Import Ingest IngestSpec.

(** [w] is a word of one of the chunks. *)
Definition word_of_chunks (cs : list text) (w : text) : Prop :=
  exists c, c ∈ cs /\ w ∈ split c.

(** The chunks closed so far and the current one hold exactly the words [W]
    read so far, and a current chunk that is not empty has a word. *)
Definition words_inv (W : list text) (st : chunker) : Prop :=
  (current_chunk st <> [] -> cur_words st <> []) /\
  (forall w, w ∈ W -> word_of_chunks (chunks st) w \/ w ∈ cur_words st) /\
  (forall w, word_of_chunks (chunks st) w -> w ∈ W) /\
  (forall w, w ∈ cur_words st -> w ∈ W).

(** The word counts of the loop are right and bounded by [B]. *)
Definition size_inv (B : Z) (st : chunker) : Prop :=
  current_word_count st = len (cur_words st) /\
  current_word_count st <= B /\
  (forall c, c ∈ chunks st -> len (split c) <= B) /\
  (current_chunk st <> [] -> cur_words st <> []).

(** No chunk was closed, and the current chunk holds the words [W]. *)
Definition open_inv (W : list text) (st : chunker) : Prop :=
  chunks st = [] /\
  current_word_count st = len (cur_words st) /\
  cur_words st = W /\
  (current_chunk st <> [] -> W <> []).

(** [needle] occurs in [hay] as a contiguous run of characters. *)
Definition contains (needle hay : text) : Prop :=
  exists l r, hay = l ++ needle ++ r.


(** A field that [create_rich_text] wraps in a sentence of its own is given,
    or the description or the details are not blank. *)
Definition has_content (doc : SiteDocument) : Prop :=
  site doc <> [] \/ ville doc <> [] \/ periode doc <> [] \/ statut doc <> [] \/
  coordonnees doc <> [] \/ monuments doc <> [] \/ horaires doc <> [] \/
  tarif doc <> [] \/ ~ blank (description doc) \/ ~ blank (details doc).

(** The character codes of the digits of a decimal number. *)
Fixpoint uint_codes (d : Decimal.uint) : text :=
  match d with
  | Decimal.Nil => []
  | Decimal.D0 d => 48%N :: uint_codes d
  | Decimal.D1 d => 49%N :: uint_codes d
  | Decimal.D2 d => 50%N :: uint_codes d
  | Decimal.D3 d => 51%N :: uint_codes d
  | Decimal.D4 d => 52%N :: uint_codes d
  | Decimal.D5 d => 53%N :: uint_codes d
  | Decimal.D6 d => 54%N :: uint_codes d
  | Decimal.D7 d => 55%N :: uint_codes d
  | Decimal.D8 d => 56%N :: uint_codes d
  | Decimal.D9 d => 57%N :: uint_codes d
  end.

Definition is_digit (c : N) : Prop := (48 <= c <= 57)%N.

(** What [read_corpus] gets from a line: nothing from a blank line, else the
    record or the message of the decoder. *)
Definition parsed_line {D} (json_loads : text -> text + D) (line : text)
  : option (text + D) :=
  if truthy (strip line) then Some (json_loads (strip line)) else None.

Definition line_doc {D} (json_loads : text -> text + D) (line : text) : option D :=
  match parsed_line json_loads line with
  | Some (inr doc) => Some doc
  | _ => None
  end.

Definition line_warning {D} (json_loads : text -> text + D) (line_num : nat)
    (line : text) : option text :=
  match parsed_line json_loads line with
  | Some (inl e) => Some (Corpus.json_warning line_num e)
  | _ => None
  end.

(** The warnings for the lines numbered from [line_num]. *)
Fixpoint warnings_from {D} (json_loads : text -> text + D) (line_num : nat)
    (lines : list text) : list text :=
  match lines with
  | [] => []
  | line :: rest =>
      from_option (fun w => [w]) [] (line_warning json_loads line_num line)
      ++ warnings_from json_loads (S line_num) rest
  end.

(** The id that [main] gives a document when the counter is at [g]. *)
Definition effective_id (g : Z) (doc : Corpus.CorpusRecord) : Corpus.doc_id :=
  default (Corpus.IdInt g) (Corpus.rec_id doc).

(** The entries staged for the chunks of one document, numbered from [i]. *)
Fixpoint staged_for {E} (embed : text -> E) (id : Corpus.doc_id)
    (doc : Corpus.CorpusRecord) (i : nat) (chunks : list text)
  : list (Corpus.StagedChunk (E:=E)) :=
  match chunks with
  | [] => []
  | chunk :: rest =>
      {| Corpus.chunk_uid := Corpus.chunk_uid_of id i;
         Corpus.chunk_text := chunk;
         Corpus.chunk_meta := Corpus.chunk_metadata id doc;
         Corpus.chunk_embedding := embed chunk |}
      :: staged_for embed id doc (S i) rest
  end.

(** The entries staged for a corpus when the counter starts at [g]. *)
Fixpoint staged_from {E} (embed : text -> E) (g : Z)
    (docs : list Corpus.CorpusRecord) : list (Corpus.StagedChunk (E:=E)) :=
  match docs with
  | [] => []
  | doc :: rest =>
      let cs := index_document (Corpus.rec_fields doc) in
      staged_for embed (effective_id g doc) doc 0 cs
      ++ staged_from embed (g + len cs) rest
  end.

(** Records of a corpus: without an id, and with the id ["0"]. *)
Definition sample_record : Corpus.CorpusRecord :=
  {| Corpus.rec_fields := small_doc; Corpus.rec_id := None;
     Corpus.rec_source := utf8 "INP"; Corpus.rec_keywords := [] |}.

Definition sample_record_zero : Corpus.CorpusRecord :=
  {| Corpus.rec_fields := small_doc;
     Corpus.rec_id := Some (Corpus.IdStr (utf8 "0"));
     Corpus.rec_source := utf8 "INP"; Corpus.rec_keywords := [] |}.


(** The ids of the documents that stage a chunk. *)
Fixpoint effective_ids (g : Z) (docs : list Corpus.CorpusRecord)
  : list Corpus.doc_id :=
  match docs with
  | [] => []
  | doc :: rest =>
      let cs := index_document (Corpus.rec_fields doc) in
      (if truthy cs then [effective_id g doc] else [])
      ++ effective_ids (g + len cs) rest
  end.

End MoreSpec.

(** ** The vocabulary of the conversations, and sample data *)

Module ChatSpec.
Import Rag RagSpec.

(** The string neither starts nor ends with a whitespace character. *)
Definition trimmed (t : text) : Prop :=
  (forall c, head t = Some c -> is_space c = false) /\
  (forall c, last t = Some c -> is_space c = false).

Definition system_turn : Message :=
  {| role := utf8 "system"; content := system_prompt |}.
Definition user_turn (q : text) : Message :=
  {| role := utf8 "user"; content := q |}.
Definition assistant_turn (a : text) : Message :=
  {| role := utf8 "assistant"; content := a |}.

(** The entries that [build_messages] and [load_history_from_messages] copy
    from a list of messages. *)
Definition copied (messages : list Message) : list Message :=
  List.map (fun msg => {| role := role msg; content := content msg |}) messages.

(** A store that cannot be queried. *)
Definition store_error : pyexn :=
  {| exn_cls := OtherException; exn_str := utf8 "Collection not found" |}.

Definition failing_store : list Call -> text -> Z -> res QueryResult :=
  fun _ _ _ => Raise store_error.

Definition connection_refused : pyexn :=
  {| exn_cls := ConnectionError; exn_str := utf8 "Connection refused" |}.

(** The messages of a stored chat of four exchanges. *)
Definition stored_messages : list Message :=
  [user_turn (utf8 "Q1"); assistant_turn (utf8 "R1");
   user_turn (utf8 "Q2"); assistant_turn (utf8 "R2");
   user_turn (utf8 "Q3"); assistant_turn (utf8 "R3");
   user_turn (utf8 "Q4"); assistant_turn (utf8 "R4")].


(** The history made of the exchanges [(question, answer)]. *)
Definition exchanges (pairs : list (text * text)) : list Message :=
  concat (List.map (fun p => [user_turn (fst p); assistant_turn (snd p)]) pairs).

Definition is_load (op : Op) : bool :=
  match op with OpLoadHistory _ => true | _ => false end.

(** The answer to [GET /api/tags] of a server that has two models. *)
Definition sample_tags : Status.TagsResponse :=
  {| Status.tags_status := 200;
     Status.tags_json :=
       inr (Some [Some (utf8 "mistral:latest"); Some (utf8 "llama3.1:8b")]) |}.

End ChatSpec.

(** ** Facts about Python strings *)

Module TextFacts.

Lemma truthy_true {A} (l : list A) : truthy l = true <-> l <> [].
Proof. destruct l; simpl; split; congruence. Qed.

Lemma truthy_false {A} (l : list A) : truthy l = false <-> l = [].
Proof. destruct l; simpl; split; congruence. Qed.

Lemma split_from_app_space cur a sp b :
  is_space sp = true ->
  split_from cur (a ++ sp :: b) = split_from cur a ++ split b.
Proof.
  intros Hsp. revert cur. induction a as [|c a IH]; intros cur; simpl.
  - rewrite Hsp. destruct cur; reflexivity.
  - destruct (is_space c).
    + destruct cur; simpl; rewrite IH; reflexivity.
    + apply IH.
Qed.

Lemma split_blank s : blank s -> split s = [].
Proof.
  unfold split. induction 1 as [|c s Hc _ IH]; simpl; [reflexivity|].
  rewrite Hc. exact IH.
Qed.

Lemma split_from_app_blank cur a ws :
  blank ws -> split_from cur (a ++ ws) = split_from cur a.
Proof.
  intros Hws. destruct Hws as [|c ws Hc Hws].
  - rewrite app_nil_r. reflexivity.
  - rewrite split_from_app_space by exact Hc.
    rewrite (split_blank ws Hws). apply app_nil_r.
Qed.

Lemma lstrip_decompose s : exists ws, s = ws ++ lstrip s /\ blank ws.
Proof.
  induction s as [|c s (ws & Hs & Hws)]; simpl.
  - exists []. split; [reflexivity | constructor].
  - destruct (is_space c) eqn:Hc.
    + exists (c :: ws). split; [simpl; congruence | constructor; assumption].
    + exists []. split; [reflexivity | constructor].
Qed.

Lemma rstrip_decompose s : exists ws, s = rstrip s ++ ws /\ blank ws.
Proof.
  destruct (lstrip_decompose (rev s)) as (ws & Hs & Hws).
  exists (rev ws). split.
  - unfold rstrip. rewrite <- rev_app_distr, <- Hs, rev_involutive. reflexivity.
  - unfold blank in *. rewrite Forall_forall in *. intros c Hc.
    apply Hws. rewrite list_elem_of_In in *. apply in_rev. exact Hc.
Qed.

Lemma split_lstrip s : split (lstrip s) = split s.
Proof.
  unfold split. induction s as [|c s IH]; simpl; [reflexivity|].
  destruct (is_space c) eqn:Hc; [exact IH|]. simpl. rewrite Hc. reflexivity.
Qed.

Lemma split_rstrip s : split (rstrip s) = split s.
Proof.
  destruct (rstrip_decompose s) as (ws & Hs & Hws).
  rewrite Hs at 2. unfold split. rewrite split_from_app_blank by exact Hws.
  reflexivity.
Qed.

Lemma split_strip s : split (strip s) = split s.
Proof. unfold strip. rewrite split_rstrip. apply split_lstrip. Qed.

Lemma split_join xs : split (join [SP] xs) = concat (List.map split xs).
Proof.
  induction xs as [|x [|y rest] IH].
  - reflexivity.
  - simpl. rewrite app_nil_r. reflexivity.
  - change (join [SP] (x :: y :: rest)) with (x ++ SP :: join [SP] (y :: rest)).
    unfold split at 1. rewrite split_from_app_space by reflexivity.
    rewrite IH. reflexivity.
Qed.

Lemma split_from_nil_inv cur s : split_from cur s = [] -> cur = [] /\ blank s.
Proof.
  revert cur. induction s as [|c s IH]; intros cur; simpl.
  - destruct cur; [split; [reflexivity | constructor] | discriminate].
  - destruct (is_space c) eqn:Hc.
    + destruct cur; [|discriminate]. intros H. destruct (IH [] H) as [_ Hs].
      split; [reflexivity | constructor; assumption].
    + intros H. destruct (IH _ H) as [Hcur _]. destruct cur; discriminate.
Qed.

Lemma lstrip_blank s : blank s -> lstrip s = [].
Proof. induction 1 as [|c s Hc _ IH]; simpl; [reflexivity | rewrite Hc; exact IH]. Qed.

Lemma strip_blank s : blank s -> strip s = [].
Proof. intros H. unfold strip. rewrite lstrip_blank by exact H. reflexivity. Qed.

(** A string has a word exactly when it is not blank after [strip]. *)
Lemma split_nil_strip s : split s = [] <-> strip s = [].
Proof.
  split; intros H.
  - apply strip_blank. apply (split_from_nil_inv [] s H).
  - rewrite <- split_strip, H. reflexivity.
Qed.

Lemma split_from_words cur s :
  Forall (fun c => is_space c = false) cur ->
  Forall is_word (split_from cur s).
Proof.
  revert cur. induction s as [|c s IH]; intros cur Hcur; simpl.
  - destruct cur; constructor; [split; [discriminate | assumption] | constructor].
  - destruct (is_space c) eqn:Hc.
    + destruct cur.
      * apply IH. constructor.
      * constructor; [split; [discriminate | assumption] | apply IH; constructor].
    + apply IH. apply Forall_app. split; [assumption | repeat constructor; assumption].
Qed.

Lemma split_words s : Forall is_word (split s).
Proof. apply split_from_words. constructor. Qed.

Lemma split_from_nospace cur w rest :
  Forall (fun c => is_space c = false) w ->
  split_from cur (w ++ rest) = split_from (cur ++ w) rest.
Proof.
  intros Hw. revert cur. induction Hw as [|c w Hc _ IH]; intros cur; simpl.
  - rewrite app_nil_r. reflexivity.
  - rewrite Hc, IH, <- app_assoc. reflexivity.
Qed.

Lemma split_word w : is_word w -> split w = [w].
Proof.
  intros [Hne Hw]. unfold split.
  rewrite <- (app_nil_r w) at 1. rewrite split_from_nospace by exact Hw.
  simpl. destruct w; congruence.
Qed.

Lemma split_join_words ws : Forall is_word ws -> split (join [SP] ws) = ws.
Proof.
  intros Hws. rewrite split_join.
  induction Hws as [|w ws Hw _ IH]; simpl; [reflexivity|].
  rewrite split_word by exact Hw. simpl. rewrite IH. reflexivity.
Qed.

Lemma last_n_words n s : Forall is_word (last_n n (split s)).
Proof.
  unfold last_n. pose proof (split_words s) as H.
  rewrite Forall_forall in *. intros w Hw. apply H.
  exact (subseteq_drop _ _ w Hw).
Qed.

Lemma len_app {A} (l k : list A) : len (l ++ k) = len l + len k.
Proof. unfold len. rewrite length_app. lia. Qed.

End TextFacts.

Import TextFacts.

(** ** Facts about the chunker *)

Module IngestFacts.
Import Ingest IngestSpec.

Lemma chained_snoc R cs c :
  chained R cs ->
  (forall l, last cs = Some l -> R l c) ->
  chained R (cs ++ [c]).
Proof.
  intros Hcs Hlast i x y Hx Hy.
  apply lookup_snoc_Some in Hy as [[Hlt Hy] | [Hlen ->]].
  - rewrite lookup_app_l in Hx by lia. exact (Hcs i x y Hx Hy).
  - rewrite lookup_app_l in Hx by lia. apply Hlast.
    rewrite last_lookup, <- Hlen. exact Hx.
Qed.

Lemma chained_drop R n cs : chained R cs -> chained R (drop n cs).
Proof.
  intros Hcs i c d Hc Hd. rewrite lookup_drop in Hc, Hd.
  apply (Hcs (n + i)%nat); [exact Hc|].
  replace (S (n + i)) with (n + S i)%nat by lia. exact Hd.
Qed.

Lemma filter_all {A} (f : A -> bool) l :
  Forall (fun x => f x = true) l -> List.filter f l = l.
Proof. induction 1 as [|x l Hx _ IH]; simpl; [|rewrite Hx, IH]; reflexivity. Qed.

(** When the test, once passed, is passed by every later element, filtering
    removes a prefix. *)
Lemma filter_upward {A} (f : A -> bool) (l : list A) :
  (forall i x y, l !! i = Some x -> l !! S i = Some y -> f x = true -> f y = true) ->
  exists n, List.filter f l = drop n l.
Proof.
  induction l as [|x l IH]; intros Hup; [exists 0%nat; reflexivity|].
  assert (forall i a b, l !! i = Some a -> l !! S i = Some b ->
                        f a = true -> f b = true) as Hup'.
  { intros i a b Ha Hb. exact (Hup (S i) a b Ha Hb). }
  simpl. destruct (f x) eqn:Hx.
  - exists 0%nat. simpl. f_equal. apply filter_all.
    clear IH. revert x Hx Hup Hup'. induction l as [|y l IHl]; intros x Hx Hup Hup'.
    + constructor.
    + assert (f y = true) as Hy by exact (Hup 0%nat x y eq_refl eq_refl Hx).
      constructor; [exact Hy|]. apply (IHl y Hy).
      * exact Hup'.
      * intros i a b Ha Hb. exact (Hup' (S i) a b Ha Hb).
  - destruct (IH Hup') as [n Hn]. exists (S n). exact Hn.
Qed.

Section Loop.

Variables target_words overlap : Z.
Hypothesis overlap_pos : 0 < overlap.

Local Abbreviation inv := (inv overlap).

Lemma cur_words_mk cs cur n :
  cur_words {| chunks := cs; current_chunk := cur; current_word_count := n |}
  = split (join [SP] cur).
Proof. reflexivity. Qed.

Lemma inv_init : inv chunker_init.
Proof.
  split; simpl; try reflexivity; try congruence; intros ? ? ?; discriminate.
Qed.

Lemma cur_words_snoc cur s :
  split (join [SP] (cur ++ [s])) = split (join [SP] cur) ++ split s.
Proof.
  rewrite !split_join, map_app, concat_app. simpl. rewrite app_nil_r. reflexivity.
Qed.

Lemma len_nonneg {A} (l : list A) : 0 <= len l.
Proof. unfold len. lia. Qed.

Lemma len_pos {A} (l : list A) : l <> [] -> 1 <= len l.
Proof. destruct l; [congruence | unfold len; simpl; lia]. Qed.

(** Saving a chunk that has a word appends its stripped text. *)
Lemma save_chunk_words cs cur :
  split (join [SP] cur) <> [] ->
  save_chunk cs cur = cs ++ [strip (join [SP] cur)].
Proof.
  intros H. unfold save_chunk.
  destruct (truthy (strip (join [SP] cur))) eqn:E; [reflexivity|].
  apply truthy_false in E. apply split_nil_strip in E. contradiction.
Qed.

Lemma overlap_words_eq (ws : list text) :
  (if overlap <=? len ws then last_n overlap ws else ws) = last_n overlap ws.
Proof.
  destruct (Z.leb_spec overlap (len ws)) as [H|H]; [reflexivity|].
  unfold last_n, len in *.
  replace (length ws - Z.to_nat overlap)%nat with 0%nat by lia.
  reflexivity.
Qed.

Lemma len_last_n_min (ws : list text) :
  len (last_n overlap ws) = Z.min overlap (len ws).
Proof. unfold last_n, len. rewrite length_drop. lia. Qed.

(** Closing the current chunk keeps both chains. *)
Lemma save_chunk_chains st :
  inv st -> cur_words st <> [] ->
  chained (overlaps overlap) (chunks st ++ [strip (join [SP] (current_chunk st))]) /\
  chained (grows overlap) (chunks st ++ [strip (join [SP] (current_chunk st))]).
Proof.
  intros I Hwords. split; apply chained_snoc.
  - exact (inv_chain _ _ I).
  - intros l Hl. unfold overlaps. rewrite split_strip. exact (inv_last _ _ I l Hl).
  - exact (inv_grows _ _ I).
  - intros l Hl. unfold grows. rewrite split_strip. fold (cur_words st).
    rewrite <- (inv_count _ _ I). exact (inv_cur_grows _ _ I l Hl).
Qed.

Lemma chunk_step_inv st sentence :
  inv st -> inv (chunk_step target_words overlap st sentence).
Proof.
  intros I. unfold chunk_step.
  destruct (truthy (strip sentence)) eqn:Hs; simpl; [|exact I].
  assert (1 <= len (split (strip sentence))) as Hwc.
  { apply len_pos. rewrite split_strip. intros E.
    apply split_nil_strip in E. apply truthy_true in Hs. contradiction. }
  pose proof (inv_count _ _ I) as Hcount.
  pose proof (len_nonneg (cur_words st)) as Hnn.
  destruct ((current_word_count st + len (split (strip sentence)) <=? target_words)
            || negb (truthy (current_chunk st))) eqn:Hcond.
  - (* the sentence joins the current chunk *)
    split; simpl.
    + rewrite cur_words_mk, cur_words_snoc, len_app. fold (cur_words st). lia.
    + intros _. lia.
    + exact (inv_chain _ _ I).
    + intros c Hc. rewrite cur_words_mk, cur_words_snoc.
      apply prefix_app_r. exact (inv_last _ _ I c Hc).
    + exact (inv_grows _ _ I).
    + intros c Hc. pose proof (inv_cur_grows _ _ I c Hc). lia.
  - (* the current chunk is closed and the next one seeded *)
    apply orb_false_iff in Hcond as [Hover Hcur].
    apply negb_false_iff in Hcur. apply truthy_true in Hcur.
    pose proof (inv_pos _ _ I Hcur) as Hpos.
    assert (cur_words st <> []) as Hwords.
    { intros E. rewrite E in Hcount. unfold len in Hcount. simpl in Hcount. lia. }
    assert ((0 <? overlap) = true) as -> by (apply Z.ltb_lt; exact overlap_pos).
    rewrite overlap_words_eq. fold (cur_words st).
    rewrite save_chunk_words by exact Hwords.
    assert (split (join [SP] [join [SP] (last_n overlap (cur_words st));
                              strip sentence])
            = last_n overlap (cur_words st) ++ split (strip sentence)) as Hnew.
    { rewrite split_join. simpl. rewrite app_nil_r.
      rewrite split_join_words by apply last_n_words. reflexivity. }
    destruct (save_chunk_chains st I Hwords) as [Hchain Hgrows].
    split; simpl.
    + rewrite cur_words_mk, Hnew, len_app. reflexivity.
    + intros _. pose proof (len_nonneg (last_n overlap (cur_words st))). lia.
    + exact Hchain.
    + intros c Hc. rewrite last_snoc in Hc. injection Hc as <-.
      rewrite split_strip. fold (cur_words st).
      rewrite cur_words_mk, Hnew. apply prefix_app_r. reflexivity.
    + exact Hgrows.
    + intros c Hc. rewrite last_snoc in Hc. injection Hc as <-.
      rewrite split_strip. fold (cur_words st). rewrite len_last_n_min. lia.
Qed.

Lemma fold_inv sentences st :
  inv st -> inv (fold_left (chunk_step target_words overlap) sentences st).
Proof.
  revert st. induction sentences as [|s ss IH]; intros st I; simpl; [exact I|].
  apply IH. apply chunk_step_inv. exact I.
Qed.

(** Before the filter, consecutive chunks overlap, and every chunk has at
    least one word more than it shares with the chunk before it. *)
Lemma built_chunks_inv t :
  chained (overlaps overlap) (built_chunks t target_words overlap) /\
  chained (grows overlap) (built_chunks t target_words overlap).
Proof.
  unfold built_chunks.
  pose proof (fold_inv (sentence_split t) chunker_init inv_init) as I.
  set (st := fold_left _ _ _) in *.
  destruct (truthy (current_chunk st)) eqn:Hcur.
  - apply truthy_true in Hcur.
    pose proof (inv_pos _ _ I Hcur) as Hpos. pose proof (inv_count _ _ I) as Hcount.
    assert (cur_words st <> []) as Hwords.
    { intros E. rewrite E in Hcount. unfold len in Hcount. simpl in Hcount. lia. }
    rewrite save_chunk_words by exact Hwords.
    exact (save_chunk_chains st I Hwords).
  - split; [exact (inv_chain _ _ I) | exact (inv_grows _ _ I)].
Qed.

End Loop.

(** A blank text has no chunk. *)
Lemma sentence_scan_blank st cur s :
  blank cur -> blank s -> Forall blank (sentence_scan st cur s).
Proof.
  intros Hcur Hs. revert st cur Hcur.
  induction Hs as [|c s Hc Hs IH]; intros st cur Hcur; simpl.
  - repeat constructor. unfold blank in *. rewrite Forall_forall in *.
    intros x Hx. apply Hcur. rewrite list_elem_of_In in *. apply in_rev. exact Hx.
  - assert (blank (c :: cur)) as Hcc by (constructor; assumption).
    assert (Forall blank [rev cur]) as Hrev.
    { repeat constructor. unfold blank in *. rewrite Forall_forall in *.
      intros x Hx. apply Hcur. rewrite list_elem_of_In in *. apply in_rev. exact Hx. }
    destruct st; rewrite ?Hc; auto.
    constructor; [inversion Hrev; assumption | apply IH; constructor].
Qed.

Lemma fold_blank target_words overlap ss st :
  Forall blank ss -> fold_left (chunk_step target_words overlap) ss st = st.
Proof.
  intros H. revert st. induction H as [|s ss Hs _ IH]; intros st; simpl; [reflexivity|].
  unfold chunk_step at 2. rewrite (strip_blank s Hs). simpl. apply IH.
Qed.

Lemma text_to_chunks_blank t target_words overlap :
  strip t = [] -> text_to_chunks t target_words overlap = [].
Proof.
  intros H. apply split_nil_strip in H.
  apply (split_from_nil_inv [] t) in H as [_ H].
  unfold text_to_chunks, built_chunks, sentence_split.
  rewrite fold_blank; [reflexivity|].
  apply sentence_scan_blank; [constructor | exact H].
Qed.

Lemma text_to_chunks_long t target_words overlap :
  Forall (fun c => MIN_CHUNK_WORDS <= len (split c))
    (text_to_chunks t target_words overlap).
Proof.
  unfold text_to_chunks. apply Forall_forall. intros c Hc.
  apply list_elem_of_In, filter_In in Hc as [_ Hc].
  unfold long_enough in Hc. apply Z.leb_le in Hc. exact Hc.
Qed.

(** *** The properties of the chunker *)

(** C2, as amended: when [overlap] is at least [MIN_CHUNK_WORDS - 1] (the
    default 30 is), the last [overlap] words of every emitted chunk (all its
    words when it has fewer) are the first words of the chunk emitted after
    it. *)
Theorem text_to_chunks_overlap (t : text) (target_words overlap : Z) :
  MIN_CHUNK_WORDS - 1 <= overlap ->
  forall i c d,
    text_to_chunks t target_words overlap !! i = Some c ->
    text_to_chunks t target_words overlap !! S i = Some d ->
    last_n overlap (split c) `prefix_of` split d.
Proof.
  intros HO. unfold MIN_CHUNK_WORDS in *.
  assert (0 < overlap) as Hpos by lia.
  destruct (built_chunks_inv target_words overlap Hpos t) as [Hchain Hgrows].
  assert (chained (overlaps overlap) (text_to_chunks t target_words overlap)) as H.
  { unfold text_to_chunks.
    destruct (filter_upward long_enough (built_chunks t target_words overlap))
      as [n ->].
    - intros i c d Hc Hd. unfold long_enough, MIN_CHUNK_WORDS.
      rewrite !Z.leb_le. pose proof (Hgrows i c d Hc Hd) as Hg.
      unfold grows in Hg. lia.
    - apply chained_drop. exact Hchain. }
  exact H.
Qed.

Lemma text_to_chunks_overlap_witness :
  last_n 30 (split long_chunk_0) `prefix_of` split long_chunk_1.
Proof.
  apply (text_to_chunks_overlap long_text CHUNK_WORD_TARGET CHUNK_OVERLAP_WORDS
           ltac:(vm_compute; discriminate) 0%nat);
    vm_compute; reflexivity.
Defined.

(** C2, as stated, fails.  With [target_words = 20] and [overlap = 2] the
    chunker builds three chunks from [sample_text], of 16, 7 and 18 words;
    the filter drops the middle one, and the last two words of the first
    emitted chunk are not the first words of the second emitted chunk.  The
    same happens with the default [target_words] and [overlap = 2] on
    [wide_text]: the 4-word middle chunk is dropped. *)
Lemma text_to_chunks_overlap_counterexample :
  (text_to_chunks sample_text 20 2 = [sample_s1; utf8 "t u. " ++ sample_s3] /\
   last_n 2 (split sample_s1) = [utf8 "o"; utf8 "p."] /\
   take 2 (split (utf8 "t u. " ++ sample_s3)) = [utf8 "t"; utf8 "u."] /\
   ~ last_n 2 (split sample_s1) `prefix_of` split (utf8 "t u. " ++ sample_s3)) /\
  (text_to_chunks wide_text CHUNK_WORD_TARGET 2
   = [sentence_of 199 "site"; utf8 "El Jem. " ++ sentence_of 199 "ruine"] /\
   last_n 2 (split (sentence_of 199 "site")) = [utf8 "site"; utf8 "site."] /\
   take 2 (split (utf8 "El Jem. " ++ sentence_of 199 "ruine"))
   = [utf8 "El"; utf8 "Jem."] /\
   ~ last_n 2 (split (sentence_of 199 "site"))
       `prefix_of` split (utf8 "El Jem. " ++ sentence_of 199 "ruine")).
Proof.
  split; split_and!; try (vm_compute; reflexivity);
    intros [k Hk]; vm_compute in Hk; discriminate Hk.
Qed.

(** The three cases of the loop body of [main]. *)
Lemma document_chunks_cases full_text :
  let valid := text_to_chunks full_text CHUNK_WORD_TARGET CHUNK_OVERLAP_WORDS in
  (valid <> [] -> document_chunks full_text = valid) /\
  (valid = [] -> strip full_text <> [] -> document_chunks full_text = [full_text]) /\
  (strip full_text = [] -> document_chunks full_text = []).
Proof.
  intros valid. unfold document_chunks. fold valid.
  destruct (truthy (strip full_text)) eqn:Hb; simpl.
  - apply truthy_true in Hb. split_and!.
    + intros Hv. apply truthy_true in Hv. rewrite Hv. reflexivity.
    + intros Hv _. rewrite Hv. reflexivity.
    + intros E. contradiction.
  - apply truthy_false in Hb. split_and!.
    + intros Hv. exfalso. apply Hv. apply text_to_chunks_blank. exact Hb.
    + intros _ Hne. contradiction.
    + reflexivity.
Qed.

(** Every chunk staged for a corpus has at least [MIN_CHUNK_WORDS] words or
    is the whole enriched text of a document without a valid chunk. *)
Lemma staged_chunks_min_words docs c :
  c ∈ staged_chunks docs ->
  MIN_CHUNK_WORDS <= len (split c) \/
  exists doc, doc ∈ docs /\ c = create_rich_text doc /\
              text_to_chunks c CHUNK_WORD_TARGET CHUNK_OVERLAP_WORDS = [].
Proof.
  unfold staged_chunks. intros Hc.
  apply list_elem_of_In, in_concat in Hc as (cs & Hcs & Hc).
  apply in_map_iff in Hcs as (doc & <- & Hdoc).
  apply list_elem_of_In in Hdoc, Hc. unfold index_document in Hc.
  destruct (document_chunks_cases (create_rich_text doc)) as (Hvalid & Hnone & Hblank).
  destruct (text_to_chunks (create_rich_text doc) CHUNK_WORD_TARGET
              CHUNK_OVERLAP_WORDS) as [|c0 cs0] eqn:Hv.
  - destruct (strip (create_rich_text doc)) eqn:Hs.
    + rewrite (Hblank eq_refl) in Hc. inversion Hc.
    + rewrite (Hnone eq_refl) in Hc by discriminate.
      apply list_elem_of_singleton in Hc. subst c. right. exists doc. auto.
  - rewrite Hvalid in Hc by discriminate. left.
    pose proof (text_to_chunks_long (create_rich_text doc) CHUNK_WORD_TARGET
                  CHUNK_OVERLAP_WORDS) as Hlong.
    rewrite Hv, Forall_forall in Hlong. exact (Hlong c Hc).
Qed.

(** C3, as amended: for a document whose enriched text is not blank, every
    staged chunk has at least [MIN_CHUNK_WORDS] words when the chunker yields
    a chunk, and when it yields none the whole enriched text is staged as the
    one chunk of the document; a document whose enriched text is blank is
    skipped, and nothing is staged for it. *)
Theorem index_document_min_words (doc : SiteDocument) :
  let full_text := create_rich_text doc in
  let valid := text_to_chunks full_text CHUNK_WORD_TARGET CHUNK_OVERLAP_WORDS in
  (valid <> [] ->
   index_document doc = valid /\
   Forall (fun c => MIN_CHUNK_WORDS <= len (split c)) (index_document doc)) /\
  (valid = [] -> strip full_text <> [] -> index_document doc = [full_text]) /\
  (strip full_text = [] -> index_document doc = []).
Proof.
  intros full_text valid. unfold index_document. fold full_text.
  destruct (document_chunks_cases full_text) as (Hvalid & Hnone & Hblank).
  fold valid in Hvalid, Hnone. split_and!; [|exact Hnone | exact Hblank].
  intros Hv. rewrite (Hvalid Hv). split; [reflexivity | apply text_to_chunks_long].
Qed.

(** C3, as stated, fails on a document with no field: its enriched text is
    empty, the chunker yields no chunk for it, and the loop of [main] skips
    it instead of staging the text as a fallback chunk. *)
Lemma index_document_min_words_counterexample :
  create_rich_text empty_doc = [] /\
  text_to_chunks (create_rich_text empty_doc) CHUNK_WORD_TARGET CHUNK_OVERLAP_WORDS
  = [] /\
  index_document empty_doc = [] /\
  index_document empty_doc <> [create_rich_text empty_doc].
Proof. split_and!; try (vm_compute; reflexivity). vm_compute. discriminate. Qed.

Lemma index_document_min_words_witness :
  index_document small_doc = [utf8 "Site archéologique: Dougga."].
Proof.
  apply (proj1 (proj2 (index_document_min_words small_doc)));
    vm_compute; [reflexivity | discriminate].
Defined.

End IngestFacts.

(** ** Facts about input sanitising *)

Module RagFacts.
Import Rag RagSpec.

Lemma sanitize_input_str s :
  sanitize_input (PyStr s)
  = collapse_spaces (remove_nul (take (Z.to_nat MAX_INPUT_LENGTH) (strip s))).
Proof. destruct s; reflexivity. Qed.

Lemma sanitize_input_not_str q : is_str q = false -> sanitize_input q = [].
Proof.
  unfold sanitize_input. intros ->. rewrite orb_true_r. reflexivity.
Qed.

Lemma collapse_from_length b s : (length (collapse_from b s) <= length s)%nat.
Proof.
  revert b. induction s as [|c s IH]; intros b; simpl; [lia|].
  pose proof (IH true). pose proof (IH false).
  destruct (is_space c); [destruct b|]; simpl; lia.
Qed.

Lemma collapse_from_elem b s c :
  c ∈ collapse_from b s -> c = SP \/ (c ∈ s /\ is_space c = false).
Proof.
  revert b. induction s as [|x s IH]; intros b; simpl.
  - intros H. inversion H.
  - assert (forall b', c ∈ collapse_from b' s ->
                       c = SP \/ (c ∈ x :: s /\ is_space c = false)) as IH'.
    { intros b' H. apply IH in H as [-> | [H1 H2]]; [left; reflexivity|].
      right. split; [right; exact H1 | exact H2]. }
    destruct (is_space x) eqn:Hx.
    + destruct b; [apply IH'|].
      rewrite elem_of_cons. intros [-> | H]; [left; reflexivity | exact (IH' _ H)].
    + rewrite elem_of_cons. intros [-> | H]; [|exact (IH' _ H)].
      right. split; [left | exact Hx].
Qed.

Lemma collapse_from_single_spaced b s : single_spaced b (collapse_from b s).
Proof.
  revert b. induction s as [|c s IH]; intros b; simpl; [exact I|].
  destruct (is_space c) eqn:Hc.
  - destruct b.
    + apply IH.
    + simpl. split; [reflexivity | apply (IH true)].
  - simpl. rewrite Hc. split; [discriminate | apply IH].
Qed.

Lemma single_spaced_lookup b s i c d :
  single_spaced b s -> s !! i = Some c -> s !! S i = Some d ->
  is_space c = true -> is_space d = false.
Proof.
  revert b i. induction s as [|x s IH]; intros b i Hs Hc Hd Hsp; [discriminate|].
  destruct Hs as [_ Hs]. destruct i as [|i].
  - simpl in Hc. injection Hc as ->. destruct s as [|y s]; [discriminate|].
    simpl in Hd. injection Hd as ->. destruct Hs as [Hy _].
    destruct (is_space d); [|reflexivity]. rewrite Hsp in Hy. discriminate (Hy eq_refl).
  - exact (IH _ i Hs Hc Hd Hsp).
Qed.

(** Collapsing whitespace runs keeps the words. *)
Lemma split_from_collapse b cur s :
  (b = true -> cur = []) ->
  split_from cur (collapse_from b s) = split_from cur s.
Proof.
  revert b cur. induction s as [|c s IH]; intros b cur Hb; simpl; [reflexivity|].
  destruct (is_space c) eqn:Hc.
  - destruct b.
    + rewrite (Hb eq_refl). apply IH. reflexivity.
    + simpl. destruct cur; rewrite (IH true []); reflexivity.
  - simpl. rewrite Hc. apply IH. discriminate.
Qed.

Lemma remove_nul_elem c s : c ∈ remove_nul s -> c ∈ s /\ c <> NUL.
Proof.
  unfold remove_nul. rewrite list_elem_of_In, filter_In, <- list_elem_of_In.
  intros [H1 H2]. split; [exact H1|].
  apply negb_true_iff, N.eqb_neq in H2. exact H2.
Qed.

(** C9: the sanitised string has at most [MAX_INPUT_LENGTH] characters (it is
    made from the first [MAX_INPUT_LENGTH] characters of the stripped input
    and has their words), no NUL, no whitespace character other than a
    space, and no two whitespace characters in a row. *)
Theorem sanitize_input_clean (s : text) :
  let r := sanitize_input (PyStr s) in
  len r <= MAX_INPUT_LENGTH /\
  split r = split (remove_nul (take (Z.to_nat MAX_INPUT_LENGTH) (strip s))) /\
  (NUL ∉ r) /\
  (forall c, c ∈ r -> is_space c = true -> c = SP) /\
  (forall i c d, r !! i = Some c -> r !! S i = Some d ->
                 is_space c = true -> is_space d = false).
Proof.
  intros r. subst r. rewrite sanitize_input_str.
  set (t := take (Z.to_nat MAX_INPUT_LENGTH) (strip s)).
  split_and!.
  - unfold len, collapse_spaces.
    pose proof (collapse_from_length false (remove_nul t)) as H1.
    assert (length (remove_nul t) <= length t)%nat as H2
      by apply List.filter_length_le.
    assert (length t <= Z.to_nat MAX_INPUT_LENGTH)%nat as H3.
    { subst t. rewrite length_take. lia. }
    unfold MAX_INPUT_LENGTH in *. lia.
  - unfold split, collapse_spaces. apply split_from_collapse. discriminate.
  - intros H. apply collapse_from_elem in H as [H | [H _]]; [discriminate|].
    apply remove_nul_elem in H as [_ H]. congruence.
  - intros c H Hc. apply collapse_from_elem in H as [H | [_ H]]; [exact H | congruence].
  - intros i c d. apply (single_spaced_lookup false). apply collapse_from_single_spaced.
Qed.

(** ** Facts about rounding *)

Ltac case_ifs :=
  repeat match goal with |- context [if ?c then _ else _] => destruct c end.

Lemma div_mod_pos n (d : positive) :
  n = Zpos d * (n / Zpos d) + n mod Zpos d /\ 0 <= n mod Zpos d < Zpos d.
Proof.
  split; [apply Z.div_mod; lia | apply Z.mod_pos_bound; lia].
Qed.




Lemma round_half_even_mono x y :
  (x <= y)%Q -> round_half_even x <= round_half_even y.
Proof.
  unfold Qle. intros H.
  destruct (div_mod_pos (Qnum x) (Qden x)) as [E1 B1].
  destruct (div_mod_pos (Qnum y) (Qden y)) as [E2 B2].
  unfold round_half_even.
  set (q1 := Qnum x / Zpos (Qden x)) in *. set (r1 := Qnum x mod Zpos (Qden x)) in *.
  set (q2 := Qnum y / Zpos (Qden y)) in *. set (r2 := Qnum y mod Zpos (Qden y)) in *.
  set (d1 := Zpos (Qden x)) in *. set (d2 := Zpos (Qden y)) in *.
  assert (0 < d1) by (subst d1; lia). assert (0 < d2) by (subst d2; lia).
  rewrite E1, E2 in H. clearbody q1 r1 q2 r2 d1 d2. clear E1 E2.
  assert (0 < d1 * d2) as Hdd by nia.
  assert (0 <= r1 * d2) as Hr1 by nia.
  assert (r2 * d1 < d2 * d1) as Hr2 by nia.
  assert (q1 <= q2) as Hq.
  { destruct (Z_le_gt_dec q1 q2) as [|Hgt]; [assumption | exfalso].
    assert (d1 * d2 * (q2 + 1) <= d1 * d2 * q1) by nia. nia. }
  destruct (Z.eq_dec q1 q2) as [Eq | Nq].
  - subst q2. assert (r1 * d2 <= r2 * d1) as Hr by nia.
    destruct (Z.ltb_spec (2 * r1) d1), (Z.ltb_spec d1 (2 * r1)),
             (Z.ltb_spec (2 * r2) d2), (Z.ltb_spec d2 (2 * r2));
      destruct (Z.even q1); try lia; exfalso; nia.
  - assert (q1 + 1 <= q2) by lia.
    case_ifs; lia.
Qed.

Lemma round3_mono x y : (x <= y)%Q -> (round3 x <= round3 y)%Q.
Proof.
  intros H. unfold round3, Qle. simpl.
  assert (round_half_even (x * 1000) <= round_half_even (y * 1000)).
  { apply round_half_even_mono. apply Qmult_le_compat_r; [exact H | discriminate]. }
  lia.
Qed.


(** ** Facts about retrieval *)

Lemma increasing_snoc idx n :
  increasing idx -> Forall (fun i => (i < n)%nat) idx -> increasing (idx ++ [n]).
Proof.
  intros Hinc Hlt a b x y Hab Ha Hb.
  apply lookup_snoc_Some in Hb as [[Hb1 Hb] | [Hb ->]].
  - rewrite lookup_app_l in Ha by lia. exact (Hinc a b x y Hab Ha Hb).
  - rewrite lookup_app_l in Ha by lia.
    rewrite Forall_lookup in Hlt. exact (Hlt a x Ha).
Qed.

Lemma retrieve_loop_inv results hits rest :
  forall pre st st',
    hits = pre ++ rest ->
    retrieve_loop results (length pre) rest st = Ok st' ->
    loop_inv results hits pre st ->
    loop_inv results hits hits st'.
Proof.
  induction rest as [|[doc meta] rest IH]; intros pre st st' Hh Hloop I.
  - simpl in Hloop. injection Hloop as <-. rewrite app_nil_r in Hh. subst pre. exact I.
  - simpl in Hloop.
    assert (hits = (pre ++ [(doc, meta)]) ++ rest) as Hh'.
    { rewrite <- app_assoc. exact Hh. }
    assert (length (pre ++ [(doc, meta)]) = S (length pre)) as Hlen.
    { rewrite length_app. simpl. lia. }
    rewrite <- Hlen in Hloop.
    destruct I as [Iseen Isites Inodup Iparts (idx & Iinc & Ilt & Ipick)].
    case_bool_decide as Hseen.
    + (* the site was met before: no new source *)
      apply (IH _ _ _ Hh' Hloop). split; simpl.
      * intros x. rewrite Iseen. split.
        -- intros (d & m & Hin & Hx). exists d, m. split; [|exact Hx].
           apply elem_of_app. left. exact Hin.
        -- intros (d & m & Hin & Hx). apply elem_of_app in Hin as [Hin | Hin].
           ++ exists d, m. split; assumption.
           ++ apply list_elem_of_singleton in Hin. injection Hin as -> ->.
              subst x. apply Iseen. exact Hseen.
      * exact Isites.
      * exact Inodup.
      * rewrite Iparts, fmap_app. reflexivity.
      * exists idx. split_and!; [exact Iinc | | exact Ipick].
        eapply Forall_impl; [exact Ilt | simpl; intros; lia].
    + (* the first hit of its site: a source is appended *)
      destruct (distance_at results (length pre)) as [d|e] eqn:Hd; [|discriminate].
      apply (IH _ _ _ Hh' Hloop). split; simpl.
      * intros x. rewrite elem_of_union, elem_of_singleton, Iseen. split.
        -- intros [-> | (d' & m & Hin & Hx)].
           ++ exists doc, meta. split; [|reflexivity].
              apply elem_of_app. right. apply list_elem_of_singleton. reflexivity.
           ++ exists d', m. split; [|exact Hx]. apply elem_of_app. left. exact Hin.
        -- intros (d' & m & Hin & Hx). apply elem_of_app in Hin as [Hin | Hin].
           ++ right. exists d', m. split; assumption.
           ++ apply list_elem_of_singleton in Hin. injection Hin as -> ->.
              left. symmetry. exact Hx.
      * intros x. rewrite fmap_app, elem_of_app, elem_of_union, elem_of_singleton.
        simpl. rewrite list_elem_of_singleton, Isites. tauto.
      * rewrite fmap_app. simpl. apply NoDup_app. split_and!.
        -- exact Inodup.
        -- intros x Hx Hx'. apply list_elem_of_singleton in Hx'. subst x.
           apply Hseen. apply Isites. exact Hx.
        -- apply NoDup_singleton.
      * rewrite Iparts, fmap_app. reflexivity.
      * exists (idx ++ [length pre]). split_and!.
        -- apply increasing_snoc; assumption.
        -- apply Forall_app. split.
           ++ eapply Forall_impl; [exact Ilt | simpl; intros; lia].
           ++ repeat constructor. lia.
        -- apply Forall2_app; [exact Ipick|]. repeat constructor.
           exists meta, d. split_and!; [|exact Hd | reflexivity]. split.
           ++ exists doc. rewrite Hh. rewrite lookup_app_r by lia.
              rewrite Nat.sub_diag. reflexivity.
           ++ intros j doc' meta' Hj Hlook Heq.
              rewrite Hh, lookup_app_l in Hlook by lia.
              apply Hseen. apply Iseen. exists doc', meta'. split; [|exact Heq].
              apply list_elem_of_lookup. exists j. exact Hlook.
Qed.

Lemma hits_of_no_docs results :
  documents results = None \/ documents results = Some [] \/
  (exists rest, documents results = Some ([] :: rest)) ->
  hits_of results = [].
Proof.
  unfold hits_of. intros [-> | [-> | [rest ->]]]; try reflexivity.
  destruct (metadatas results) as [[|]|]; reflexivity.
Qed.

Lemma retrieve_loop_returns results hits :
  forall i st,
    match distances results with
    | None | Some [] => True
    | Some (row :: _) => (i + length hits <= length row)%nat
    end ->
    exists st', retrieve_loop results i hits st = Ok st'.
Proof.
  induction hits as [|[doc meta] hits IH]; intros i st Hrow; simpl.
  - exists st. reflexivity.
  - assert (match distances results with
            | None | Some [] => True
            | Some (row :: _) => (S i + length hits <= length row)%nat
            end) as Hnext.
    { destruct (distances results) as [[|row rest]|]; simpl in *; auto; lia. }
    case_bool_decide; [apply IH; exact Hnext|].
    assert (exists d, distance_at results i = Ok d) as [d ->].
    { unfold distance_at. destruct (distances results) as [[|row rest]|]; eauto.
      destruct (row !! i) as [x|] eqn:E; eauto.
      apply lookup_ge_None in E. simpl in Hrow. lia. }
    apply IH. exact Hnext.
Qed.

(** [retrieve_documents] returns on every well-formed answer of the store. *)
Lemma process_results_returns results :
  well_formed results -> exists ctx srcs, process_results results = Ok (ctx, srcs).
Proof.
  unfold well_formed, process_results, hits_of.
  destruct (documents results) as [[|[|doc docs] rest]|]; cbn [truthy negb]; eauto.
  intros [(metas & rest' & ->) Hrow].
  destruct (retrieve_loop_returns results (zip (doc :: docs) metas) 0
              {| context_parts := []; sources := []; seen_sites := ∅ |})
    as [st ->]; [|eauto].
  destruct (distances results) as [[|row rest'']|]; auto.
Qed.

Lemma loop_inv_init results hits :
  loop_inv results hits []
    {| context_parts := []; sources := []; seen_sites := ∅ |}.
Proof.
  split; simpl.
  - intros x. split; [intros H; set_solver|].
    intros (d & m & H & _). inversion H.
  - intros x. split; intros H; [set_solver | inversion H].
  - constructor.
  - reflexivity.
  - exists []. split_and!; [intros a b x y _ H; discriminate | constructor | constructor].
Qed.

(** What [retrieve_documents] makes of the answer of the store: one source
    per site, made from the first hit of that site, in the order of the
    hits; the context joins the stripped documents of all hits. *)
Lemma process_results_sources results ctx srcs :
  process_results results = Ok (ctx, srcs) ->
  NoDup (site <$> srcs) /\
  (forall doc meta, (doc, meta) ∈ hits_of results -> site_of meta ∈ site <$> srcs) /\
  ctx = join [10; 10]%N ((fun h => strip (fst h)) <$> hits_of results) /\
  exists idx, increasing idx /\ Forall2 (picked_from (hits_of results) results) idx srcs.
Proof.
  assert (forall hits : list (text * gmap text text),
    hits = [] ->
    NoDup (site <$> []) /\
    (forall doc meta, (doc, meta) ∈ hits -> site_of meta ∈ site <$> []) /\
    [] = join [10; 10]%N ((fun h => strip (fst h)) <$> hits) /\
    exists idx, increasing idx /\ Forall2 (picked_from hits results) idx []) as Hnone.
  { intros hits ->. split_and!; [constructor | intros ? ? H; inversion H | reflexivity|].
    exists []. split; [intros a b x y _ H; discriminate | constructor]. }
  unfold process_results.
  destruct (documents results) as [[|[|doc docs] rest]|] eqn:Hdocs;
    cbn [truthy negb].
  - intros [= <- <-]. apply Hnone. apply hits_of_no_docs. rewrite Hdocs. auto.
  - intros [= <- <-]. apply Hnone. apply hits_of_no_docs. rewrite Hdocs. eauto.
  - destruct (metadatas results) as [[|metas rest']|] eqn:Hmetas; try discriminate.
    assert (hits_of results = zip (doc :: docs) metas) as ->.
    { unfold hits_of. rewrite Hdocs, Hmetas. reflexivity. }
    destruct (retrieve_loop results 0 (zip (doc :: docs) metas)
                {| context_parts := []; sources := []; seen_sites := ∅ |})
      as [st|e] eqn:Hloop; [|discriminate].
    intros [= <- <-].
    pose proof (retrieve_loop_inv results (zip (doc :: docs) metas)
                  (zip (doc :: docs) metas) [] _ st eq_refl Hloop
                  (loop_inv_init _ _)) as [Iseen Isites Inodup Iparts (idx & Iinc & _ & Ipick)].
    split_and!.
    + exact Inodup.
    + intros d m Hin. apply Isites, Iseen. exists d, m. split; [exact Hin | reflexivity].
    + rewrite Iparts. reflexivity.
    + exists idx. split; assumption.
  - intros [= <- <-]. apply Hnone. apply hits_of_no_docs. rewrite Hdocs. auto.
Qed.

(** ** Facts about the generation client and [answer] *)

Section ServiceFacts.

Variable collection_query : list Call -> text -> Z -> res QueryResult.
Variable requests_post : list Call -> list Message -> res (Response * Z).

Lemma retrieve_documents_eq query top_k w :
  retrieve_documents collection_query query top_k w
  = (match collection_query (calls w) query top_k with
     | Raise e => Raise e
     | Ok results => process_results results
     end, log_call (CallQuery query top_k) w).
Proof. reflexivity. Qed.

Lemma generate_response_eq messages w :
  generate_response requests_post messages w
  = (Ok match requests_post (calls w) messages with
        | Raise e => handled e
        | Ok (response, response_time) =>
            if status_code response =? 200 then
              match json response with
              | Ok result =>
                  (message_content result, default 0 (eval_count result),
                   response_time)
              | Raise e => handled e
              end
            else if status_code response =? 404 then
              (msg_model_missing, 0, response_time)
            else (msg_api_error (status_code response), 0, response_time)
        end,
     log_call (CallPost messages) w).
Proof.
  unfold generate_response, try_except, post, handled, handled_message,
    mbind, M_bind, mret, M_ret, lift.
  destruct (requests_post (calls w) messages) as [[response ms]|e].
  - destruct (status_code response =? 200).
    + destruct (json response) as [result|e]; [reflexivity|].
      destruct (exn_cls e); reflexivity.
    + destruct (status_code response =? 404); reflexivity.
  - destruct (exn_cls e); reflexivity.
Qed.

Lemma answer_eq query top_k w :
  answer collection_query requests_post query top_k w
  = let q := sanitize_input query in
    if negb (truthy q) then (Ok (msg_invalid, [], 0, 0), w)
    else
      match retrieve_documents collection_query q top_k w with
      | (Raise e, w1) => (Raise e, w1)
      | (Ok (context, sources), w1) =>
          if negb (truthy context) then (Ok (msg_no_document, [], 0, 0), w1)
          else
            let messages := prompt_messages (conversation_history w1) q context in
            match generate_response requests_post messages w1 with
            | (Raise e, w2) => (Raise e, w2)
            | (Ok (answer, tokens, response_time), w2) =>
                (Ok (answer, sources, tokens, response_time),
                 {| conversation_history :=
                      history_after (conversation_history w2) q answer;
                    calls := calls w2 |})
            end
      end.
Proof.
  unfold answer. cbv zeta.
  destruct (negb (truthy (sanitize_input query))); [reflexivity|].
  unfold mbind at 1. unfold M_bind at 1.
  destruct (retrieve_documents _ _ _ w) as [[[context sources]|e] w1]; [|reflexivity].
  destruct (negb (truthy context)); [reflexivity|].
  unfold build_messages, get_history, set_history, mbind, M_bind, mret, M_ret.
  cbn [conversation_history calls].
  fold (prompt_messages (conversation_history w1) (sanitize_input query) context).
  destruct (generate_response requests_post _ w1) as [[[[a t] l]|e] w2];
    [|reflexivity].
  cbn [conversation_history calls]. unfold history_after. cbv zeta.
  destruct (MAX_HISTORY_MESSAGES * 2 <? _); reflexivity.
Qed.

End ServiceFacts.

(** *** Retrieval *)

Lemma sample_retrieval :
  retrieve_documents (sample_store sample_results) sample_query 5 new_chatbot
  = (Ok (sample_context, [dougga_source; el_jem_source]),
     log_call (CallQuery sample_query 5) new_chatbot).
Proof. vm_compute. reflexivity. Qed.

Lemma retrieve_documents_ok cq query top_k w results ctx srcs w' :
  cq (calls w) query top_k = Ok results ->
  retrieve_documents cq query top_k w = (Ok (ctx, srcs), w') ->
  process_results results = Ok (ctx, srcs).
Proof.
  intros Hq. rewrite retrieve_documents_eq, Hq. intros [= H _]. exact H.
Qed.





(** A distance of exactly zero is supplied by the store and yet gives no
    relevance: zero is falsy in [if distance]. *)
Lemma relevance_of_zero_distance : relevance_of (Some 0%Q) = None.
Proof. reflexivity. Qed.

Lemma relevance_of_Some d r :
  relevance_of d = Some r -> exists x, d = Some x /\ r = round3 (1 - x).
Proof.
  destruct d as [x|]; simpl; [|discriminate].
  destruct (Qeq_bool x 0); [discriminate|]. intros [= <-]. exists x. auto.
Qed.

Lemma distance_at_row results row rest i x :
  distances results = Some (row :: rest) ->
  distance_at results i = Ok (Some x) -> row !! i = Some x.
Proof.
  unfold distance_at. intros ->. destruct (row !! i); [|discriminate].
  intros [= ->]. reflexivity.
Qed.

(** C4: the returned sources have pairwise distinct sites, one for every
    site among the hits; each is made from the first hit of its site, and
    they follow the order of the hits, so that, the hits being in similarity
    order, the relevances do not increase along the list. *)
Theorem retrieve_documents_dedup
    (cq : list Call -> text -> Z -> res QueryResult)
    (query : text) (top_k : Z) (w w' : World)
    (results : QueryResult) (ctx : text) (srcs : list RetrievedSource) :
  cq (calls w) query top_k = Ok results ->
  retrieve_documents cq query top_k w = (Ok (ctx, srcs), w') ->
  NoDup (site <$> srcs) /\
  (forall doc meta, (doc, meta) ∈ hits_of results -> site_of meta ∈ site <$> srcs) /\
  (exists idx, increasing idx /\
               Forall2 (picked_from (hits_of results) results) idx srcs) /\
  (forall row rest, distances results = Some (row :: rest) -> ascending row ->
     forall a b s s' r r',
       (a < b)%nat -> srcs !! a = Some s -> srcs !! b = Some s' ->
       relevance s = Some r -> relevance s' = Some r' -> (r' <= r)%Q).
Proof.
  intros Hq Hr.
  pose proof (retrieve_documents_ok _ _ _ _ _ _ _ _ Hq Hr) as Hp.
  destruct (process_results_sources _ _ _ Hp) as (Hnd & Hall & _ & idx & Hinc & HF).
  split_and!; [exact Hnd | exact Hall | exists idx; split; assumption |].
  intros row rest Hrow Hasc a b s s' r r' Hab Ha Hb Hrel Hrel'.
  destruct (Forall2_lookup_r _ _ _ _ _ HF Ha) as (i & Hi & m & d & _ & Hd & ->).
  destruct (Forall2_lookup_r _ _ _ _ _ HF Hb) as (j & Hj & m' & d' & _ & Hd' & ->).
  simpl in Hrel, Hrel'.
  apply relevance_of_Some in Hrel as (x & -> & ->).
  apply relevance_of_Some in Hrel' as (y & -> & ->).
  pose proof (Hinc a b i j Hab Hi Hj) as Hij.
  pose proof (distance_at_row _ _ _ _ _ Hrow Hd) as Hx.
  pose proof (distance_at_row _ _ _ _ _ Hrow Hd') as Hy.
  assert (x <= y)%Q as Hxy by (apply (Hasc i j); [lia | assumption | assumption]).
  apply round3_mono. lra.
Qed.

Lemma retrieve_documents_dedup_witness :
  NoDup (site <$> [dougga_source; el_jem_source]) /\
  (forall doc meta, (doc, meta) ∈ hits_of sample_results ->
                    site_of meta ∈ site <$> [dougga_source; el_jem_source]) /\
  (exists idx, increasing idx /\
               Forall2 (picked_from (hits_of sample_results) sample_results) idx
                 [dougga_source; el_jem_source]) /\
  (forall row rest, distances sample_results = Some (row :: rest) -> ascending row ->
     forall a b s s' r r',
       (a < b)%nat -> [dougga_source; el_jem_source] !! a = Some s ->
       [dougga_source; el_jem_source] !! b = Some s' ->
       relevance s = Some r -> relevance s' = Some r' -> (r' <= r)%Q).
Proof.
  exact (retrieve_documents_dedup (sample_store sample_results) sample_query 5
           new_chatbot _ sample_results sample_context
           [dougga_source; el_jem_source] eq_refl sample_retrieval).
Defined.



(** C7: an input that is not a string, or a blank string, or any input that
    sanitises to the empty string, sanitises to the empty string, and
    [answer] returns the validation message with no source, no token and no
    latency, leaving the chatbot and the list of calls as they were. *)
Theorem answer_rejects_empty_input
    (cq : list Call -> text -> Z -> res QueryResult)
    (rp : list Call -> list Message -> res (Response * Z))
    (query : pyval) (top_k : Z) (w : World) :
  is_str query = false \/ (exists s, query = PyStr s /\ blank s) \/
  sanitize_input query = [] ->
  sanitize_input query = [] /\
  answer cq rp query top_k w = (Ok (msg_invalid, [], 0, 0), w).
Proof.
  intros H.
  assert (sanitize_input query = []) as E.
  { destruct H as [H | [(s & -> & H) | H]].
    - apply sanitize_input_not_str. exact H.
    - rewrite sanitize_input_str, strip_blank by exact H. reflexivity.
    - exact H. }
  split; [exact E|]. rewrite answer_eq. cbv zeta. rewrite E. reflexivity.
Qed.

Lemma answer_rejects_empty_input_witness :
  sanitize_input (PyStr (utf8 "   ")) = [] /\
  answer (sample_store sample_results) offline_service (PyStr (utf8 "   ")) 5
    new_chatbot
  = (Ok (msg_invalid, [], 0, 0), new_chatbot).
Proof.
  apply (answer_rejects_empty_input (sample_store sample_results) offline_service
           (PyStr (utf8 "   ")) 5 new_chatbot).
  right. right. vm_compute. reflexivity.
Defined.


(** *** The conversation history *)

Lemma last_n_all {A} n (l : list A) : len l <= n -> last_n n l = l.
Proof.
  unfold len, last_n. intros H.
  replace (length l - Z.to_nat n)%nat with 0%nat by lia. reflexivity.
Qed.

Lemma len_last_n_le {A} n (l : list A) : 0 <= n -> len (last_n n l) <= n.
Proof. unfold len, last_n. intros H. rewrite length_drop. lia. Qed.

Lemma history_after_eq history query answer :
  history_after history query answer
  = last_n (MAX_HISTORY_MESSAGES * 2)
      (history ++ [{| role := utf8 "user"; content := query |};
                   {| role := utf8 "assistant"; content := answer |}]).
Proof.
  unfold history_after. cbv zeta. rewrite <- app_assoc. simpl.
  destruct (Z.ltb_spec (MAX_HISTORY_MESSAGES * 2)
              (len (history ++ [{| role := utf8 "user"; content := query |};
                                {| role := utf8 "assistant"; content := answer |}])))
    as [H|H]; [reflexivity|].
  rewrite last_n_all by exact H. reflexivity.
Qed.

Lemma history_after_bounded history query answer :
  len (history_after history query answer) <= MAX_HISTORY_MESSAGES * 2.
Proof.
  rewrite history_after_eq. apply len_last_n_le. unfold MAX_HISTORY_MESSAGES. lia.
Qed.

(** The three ways [answer] ends: the input is rejected; the retrieval
    raises or finds nothing; or the generation service is called and the
    exchange is recorded. *)
Lemma answer_outcome cq rp query top_k w r w' :
  answer cq rp query top_k w = (r, w') ->
  let q := sanitize_input query in
  (q = [] /\ r = Ok (msg_invalid, [], 0, 0) /\ w' = w) \/
  (q <> [] /\ w' = log_call (CallQuery q top_k) w /\
   ((exists e, r = Raise e) \/
    (exists srcs, retrieve_documents cq q top_k w = (Ok ([], srcs), w') /\
                  r = Ok (msg_no_document, [], 0, 0)))) \/
  (exists ctx srcs a t l,
     q <> [] /\ ctx <> [] /\
     retrieve_documents cq q top_k w
     = (Ok (ctx, srcs), log_call (CallQuery q top_k) w) /\
     r = Ok (a, srcs, t, l) /\
     conversation_history w' = history_after (conversation_history w) q a /\
     calls w'
     = calls w ++ [CallQuery q top_k;
                   CallPost (prompt_messages (conversation_history w) q ctx)]).
Proof.
  rewrite answer_eq. cbv zeta.
  destruct (truthy (sanitize_input query)) eqn:Hq; cbn [negb].
  2: { apply truthy_false in Hq. intros [= <- <-]. left. auto. }
  apply truthy_true in Hq.
  destruct (retrieve_documents cq (sanitize_input query) top_k w)
    as [[[ctx srcs]|e] w1] eqn:Hr.
  2: { intros [= <- <-]. right. left. rewrite retrieve_documents_eq in Hr.
       injection Hr as _ <-. eauto 10. }
  assert (w1 = log_call (CallQuery (sanitize_input query) top_k) w) as Hw1.
  { rewrite retrieve_documents_eq in Hr. injection Hr as _ <-. reflexivity. }
  destruct (truthy ctx) eqn:Hc; cbn [negb].
  2: { apply truthy_false in Hc. subst ctx. intros [= <- <-]. right. left.
       split_and!; [exact Hq | exact Hw1 |]. right. exists srcs. auto. }
  apply truthy_true in Hc.
  destruct (generate_response rp _ w1) as [[[[a t] l]|e] w2] eqn:Hg;
    rewrite generate_response_eq in Hg; [|discriminate].
  injection Hg as _ <-.
  intros [= <- <-]. right. right. exists ctx, srcs, a, t, l. subst w1.
  split_and!; auto. simpl. rewrite <- app_assoc. reflexivity.
Qed.

Lemma run_op_bounded cq rp op w :
  len (conversation_history w) <= MAX_HISTORY_MESSAGES * 2 ->
  len (conversation_history (run_op cq rp op w)) <= MAX_HISTORY_MESSAGES * 2.
Proof.
  intros H. destruct op as [query top_k | messages |]; simpl.
  - destruct (answer cq rp query top_k w) as [r w'] eqn:Ha. simpl.
    apply answer_outcome in Ha
      as [(_ & _ & ->)
         | [(_ & -> & _)
           | (ctx & srcs & a & t & l & _ & _ & _ & _ & -> & _)]].
    + exact H.
    + exact H.
    + apply history_after_bounded.
  - unfold len. rewrite length_map.
    fold (len (last_n MAX_HISTORY_MESSAGES messages)).
    pose proof (len_last_n_le MAX_HISTORY_MESSAGES messages).
    unfold MAX_HISTORY_MESSAGES in *. lia.
  - unfold len, MAX_HISTORY_MESSAGES. simpl. lia.
Qed.

(** C5: whatever a caller does with a chatbot, its history never holds more
    than [MAX_HISTORY_MESSAGES * 2] entries; and a call to [answer] either
    leaves the history as it was or sets it to the last
    [MAX_HISTORY_MESSAGES * 2] entries of the old history followed by the
    question and the answer. *)
Theorem history_window_bounded
    (cq : list Call -> text -> Z -> res QueryResult)
    (rp : list Call -> list Message -> res (Response * Z)) :
  (forall ops,
     len (conversation_history (run cq rp ops)) <= MAX_HISTORY_MESSAGES * 2) /\
  (forall query top_k w r w',
     answer cq rp query top_k w = (r, w') ->
     conversation_history w' = conversation_history w \/
     exists a srcs t l,
       r = Ok (a, srcs, t, l) /\
       conversation_history w'
       = last_n (MAX_HISTORY_MESSAGES * 2)
           (conversation_history w
            ++ [{| role := utf8 "user"; content := sanitize_input query |};
                {| role := utf8 "assistant"; content := a |}])).
Proof.
  split.
  - intros ops. unfold run.
    assert (forall w, len (conversation_history w) <= MAX_HISTORY_MESSAGES * 2 ->
              len (conversation_history
                     (fold_left (fun w op => run_op cq rp op w) ops w))
              <= MAX_HISTORY_MESSAGES * 2) as H.
    { induction ops as [|op ops IH]; intros w Hw; simpl; [exact Hw|].
      apply IH. apply run_op_bounded. exact Hw. }
    apply H. unfold len, MAX_HISTORY_MESSAGES. simpl. lia.
  - intros query top_k w r w' Ha.
    apply answer_outcome in Ha
      as [(_ & _ & ->)
         | [(_ & -> & _)
           | (ctx & srcs & a & t & l & _ & _ & _ & -> & Hh & _)]].
    + left. reflexivity.
    + left. reflexivity.
    + right. exists a, srcs, t, l. split; [reflexivity|].
      rewrite Hh. apply history_after_eq.
Qed.

Lemma sample_answer :
  answer (sample_store sample_results) offline_service (PyStr sample_query) 5
    new_chatbot
  = (Ok (msg_unreachable, [dougga_source; el_jem_source], 0, 0),
     sample_world_after).
Proof. vm_compute. reflexivity. Qed.

(** C10: when the input is rejected or the retrieved context is empty,
    [answer] leaves the history as it was and makes no call to the
    generation service; when the history has changed, the generation service
    was called and the question and its answer were recorded. *)
Theorem answer_history_frame
    (cq : list Call -> text -> Z -> res QueryResult)
    (rp : list Call -> list Message -> res (Response * Z))
    (query : pyval) (top_k : Z) (w w' : World)
    (r : res (text * list RetrievedSource * Z * Z)) :
  answer cq rp query top_k w = (r, w') ->
  let q := sanitize_input query in
  (q = [] -> conversation_history w' = conversation_history w /\ calls w' = calls w) /\
  (forall srcs w1,
     q <> [] -> retrieve_documents cq q top_k w = (Ok ([], srcs), w1) ->
     conversation_history w' = conversation_history w /\
     calls w' = calls w ++ [CallQuery q top_k]) /\
  (conversation_history w' <> conversation_history w ->
   exists ctx srcs a t l,
     r = Ok (a, srcs, t, l) /\
     calls w'
     = calls w ++ [CallQuery q top_k;
                   CallPost (prompt_messages (conversation_history w) q ctx)] /\
     conversation_history w' = history_after (conversation_history w) q a).
Proof.
  intros Ha q. apply answer_outcome in Ha. fold q in Ha.
  destruct Ha
    as [(Hq & _ & ->)
       | [(Hq & -> & _)
         | (ctx & srcs & a & t & l & Hq & Hc & Hr & -> & Hh & Hcalls)]].
  - split_and!; [auto | intros; contradiction | intros; contradiction].
  - split_and!; [intros; contradiction | auto | intros; contradiction].
  - split_and!.
    + intros; contradiction.
    + intros srcs' w1 _ Hr'. rewrite Hr in Hr'. injection Hr' as -> _ _. contradiction.
    + intros _. exists ctx, srcs, a, t, l. auto.
Qed.

Lemma answer_history_frame_witness :
  let q := sanitize_input (PyStr sample_query) in
  (q = [] ->
   conversation_history sample_world_after = conversation_history new_chatbot /\
   calls sample_world_after = calls new_chatbot) /\
  (forall srcs w1,
     q <> [] ->
     retrieve_documents (sample_store sample_results) q 5 new_chatbot
     = (Ok ([], srcs), w1) ->
     conversation_history sample_world_after = conversation_history new_chatbot /\
     calls sample_world_after = calls new_chatbot ++ [CallQuery q 5]) /\
  (conversation_history sample_world_after <> conversation_history new_chatbot ->
   exists ctx srcs a t l,
     Ok (msg_unreachable, [dougga_source; el_jem_source], 0, 0) = Ok (a, srcs, t, l) /\
     calls sample_world_after
     = calls new_chatbot
       ++ [CallQuery q 5;
           CallPost (prompt_messages (conversation_history new_chatbot) q ctx)] /\
     conversation_history sample_world_after
     = history_after (conversation_history new_chatbot) q a).
Proof.
  exact (answer_history_frame (sample_store sample_results) offline_service
           (PyStr sample_query) 5 new_chatbot sample_world_after _ sample_answer).
Defined.

End RagFacts.

(** ** More facts about the chunker: words kept, sizes, short texts *)

Module IngestExtra.
Import Ingest IngestSpec IngestFacts MoreSpec.

(** Cutting a text into sentences keeps its words. *)
Lemma sentence_scan_words st cur s :
  (st = InSeparator -> cur = []) ->
  concat (List.map split (sentence_scan st cur s)) = split (rev cur ++ s).
Proof.
  revert st cur. induction s as [|c s IH]; intros st cur Hsep; simpl.
  - rewrite !app_nil_r. reflexivity.
  - assert (forall st', st' <> InSeparator ->
              concat (List.map split (sentence_scan st' (c :: cur) s))
              = split (rev cur ++ c :: s)) as Hpush.
    { intros st' Hst. rewrite IH by (intros E; contradiction).
      simpl. rewrite <- app_assoc. reflexivity. }
    assert (scan_of c <> InSeparator) as Hc.
    { unfold scan_of. destruct (is_sentence_end c); discriminate. }
    destruct st.
    + apply Hpush. exact Hc.
    + destruct (is_space c) eqn:Hsp; [|apply Hpush; exact Hc].
      simpl. rewrite IH by reflexivity. simpl.
      unfold split at 3. rewrite split_from_app_space by exact Hsp. reflexivity.
    + rewrite (Hsep eq_refl) in *. simpl.
      destruct (is_space c) eqn:Hsp; [|apply (Hpush _ Hc)].
      rewrite IH by reflexivity. simpl. unfold split at 2. simpl. rewrite Hsp.
      reflexivity.
Qed.

Lemma sentence_split_words t :
  concat (List.map split (sentence_split t)) = split t.
Proof. unfold sentence_split. rewrite sentence_scan_words by discriminate. reflexivity. Qed.

Lemma word_of_chunks_snoc cs c w :
  word_of_chunks (cs ++ [c]) w <-> word_of_chunks cs w \/ w ∈ split c.
Proof.
  unfold word_of_chunks. split.
  - intros (x & Hx & Hw). apply elem_of_app in Hx as [Hx | Hx].
    + left. exists x. auto.
    + apply list_elem_of_singleton in Hx. subst x. right. exact Hw.
  - intros [(x & Hx & Hw) | Hw].
    + exists x. split; [apply elem_of_app; left; exact Hx | exact Hw].
    + exists c. split; [apply elem_of_app; right; left | exact Hw].
Qed.

Section Words.

Variables target_words overlap : Z.

(** The state after the current chunk is closed and the next one is seeded
    with the words [ow] of the closed one. *)
Lemma close_words W st s ow cur' n :
  words_inv W st -> split s <> [] ->
  (forall w, w ∈ ow -> w ∈ cur_words st) ->
  split (join [SP] cur') = ow ++ split s ->
  words_inv (W ++ split s)
    {| chunks := chunks st ++ [strip (join [SP] (current_chunk st))];
       current_chunk := cur';
       current_word_count := n |}.
Proof.
  intros (Hcur & Hcover & Hsound & Hsoundcur) Hwords How Hnew.
  unfold words_inv. rewrite cur_words_mk, Hnew. cbn [chunks current_chunk].
  split_and!.
  - intros _ E. apply app_eq_nil in E as [_ E]. contradiction.
  - intros w Hw. apply elem_of_app in Hw as [Hw | Hw].
    + left. apply word_of_chunks_snoc. rewrite split_strip. fold (cur_words st).
      exact (Hcover w Hw).
    + right. apply elem_of_app. auto.
  - intros w Hw. apply word_of_chunks_snoc in Hw. rewrite split_strip in Hw.
    apply elem_of_app. left. destruct Hw as [Hw | Hw]; auto.
  - intros w Hw. apply elem_of_app in Hw as [Hw | Hw]; apply elem_of_app; auto.
Qed.

Lemma chunk_step_words W st sentence :
  words_inv W st ->
  words_inv (W ++ split sentence) (chunk_step target_words overlap st sentence).
Proof.
  intros (Hcur & Hcover & Hsound & Hsoundcur). unfold chunk_step.
  destruct (truthy (strip sentence)) eqn:Hs; cbn [negb].
  2: { apply truthy_false, split_nil_strip in Hs. rewrite Hs, app_nil_r.
       repeat split; assumption. }
  apply truthy_true in Hs.
  assert (split (strip sentence) <> []) as Hwords.
  { rewrite split_strip. intros E. apply split_nil_strip in E. contradiction. }
  rewrite <- (split_strip sentence). set (s := strip sentence) in *.
  destruct ((current_word_count st + len (split s) <=? target_words)
            || negb (truthy (current_chunk st))) eqn:Hcond.
  - (* the sentence joins the current chunk *)
    unfold words_inv. rewrite cur_words_mk, cur_words_snoc. cbn [chunks current_chunk].
    fold (cur_words st). split_and!.
    + intros _ E. apply app_eq_nil in E as [_ E]. contradiction.
    + intros w Hw. apply elem_of_app in Hw as [Hw | Hw].
      * destruct (Hcover w Hw); [left; assumption | right; apply elem_of_app; auto].
      * right. apply elem_of_app. auto.
    + intros w Hw. apply elem_of_app. left. exact (Hsound w Hw).
    + intros w Hw. apply elem_of_app in Hw as [Hw | Hw]; apply elem_of_app; auto.
  - (* the current chunk is closed *)
    apply orb_false_iff in Hcond as [_ Hne].
    apply negb_false_iff in Hne. apply truthy_true in Hne.
    pose proof (Hcur Hne) as Hcw.
    rewrite save_chunk_words by exact Hcw.
    destruct (Z.ltb_spec 0 overlap) as [Hpos | Hnonpos].
    + rewrite overlap_words_eq by exact Hpos. fold (cur_words st).
      apply (close_words W st s (last_n overlap (cur_words st)));
        [repeat split; assumption | exact Hwords | |].
      * intros w Hw. exact (subseteq_drop _ _ w Hw).
      * rewrite split_join. simpl. rewrite app_nil_r.
        rewrite split_join_words by apply last_n_words. reflexivity.
    + apply (close_words W st s []);
        [repeat split; assumption | exact Hwords | |].
      * intros w Hw. inversion Hw.
      * reflexivity.
Qed.

Lemma fold_words sentences :
  forall W st,
    words_inv W st ->
    words_inv (W ++ concat (List.map split sentences))
      (fold_left (chunk_step target_words overlap) sentences st).
Proof.
  induction sentences as [|s ss IH]; intros W st I; simpl.
  - rewrite app_nil_r. exact I.
  - rewrite app_assoc. apply IH. apply chunk_step_words. exact I.
Qed.

(** Before the filter, the chunks hold exactly the words of the text. *)
Lemma built_chunks_words t w :
  w ∈ split t <-> word_of_chunks (built_chunks t target_words overlap) w.
Proof.
  assert (words_inv [] chunker_init) as I0.
  { unfold words_inv, word_of_chunks. simpl. split_and!.
    - congruence.
    - intros x Hx. inversion Hx.
    - intros x (c & Hc & _). inversion Hc.
    - intros x Hx. inversion Hx. }
  pose proof (fold_words (sentence_split t) [] chunker_init I0) as I.
  simpl in I. rewrite sentence_split_words in I. unfold built_chunks.
  set (st := fold_left _ _ _) in *. destruct I as (Hcur & Hcover & Hsound & Hsoundcur).
  destruct (truthy (current_chunk st)) eqn:E.
  - apply truthy_true in E. rewrite save_chunk_words by exact (Hcur E).
    rewrite word_of_chunks_snoc, split_strip. fold (cur_words st). split.
    + exact (Hcover w).
    + intros [H | H]; auto.
  - apply truthy_false in E. split; [|exact (Hsound w)].
    intros Hw. destruct (Hcover w Hw) as [H | H]; [exact H|].
    unfold cur_words in H. rewrite E in H. inversion H.
Qed.

End Words.

Lemma upward_all {A} (f : A -> bool) (l : list A) :
  forall x,
    f x = true ->
    (forall i a b, (x :: l) !! i = Some a -> (x :: l) !! S i = Some b ->
                   f a = true -> f b = true) ->
    Forall (fun y => f y = true) l.
Proof.
  induction l as [|y l IH]; intros x Hx Hup; [constructor|].
  assert (f y = true) as Hy by exact (Hup 0%nat x y eq_refl eq_refl Hx).
  constructor; [exact Hy|]. apply (IH y Hy).
  intros i a b Ha Hb. exact (Hup (S i) a b Ha Hb).
Qed.

(** When the test, once passed, is passed by every later element, filtering
    removes the prefix of the elements that fail it. *)
Lemma filter_upward_prefix {A} (f : A -> bool) (l : list A) :
  (forall i x y, l !! i = Some x -> l !! S i = Some y -> f x = true -> f y = true) ->
  exists n, List.filter f l = drop n l /\
            forall i x, (i < n)%nat -> l !! i = Some x -> f x = false.
Proof.
  induction l as [|x l IH]; intros Hup.
  - exists 0%nat. split; [reflexivity | intros; lia].
  - simpl. destruct (f x) eqn:Hx.
    + exists 0%nat. split; [|intros; lia]. simpl. f_equal.
      apply filter_all. exact (upward_all f l x Hx Hup).
    + destruct IH as (n & Hn & Hshort).
      { intros i a b Ha Hb. exact (Hup (S i) a b Ha Hb). }
      exists (S n). split; [exact Hn|].
      intros [|i] y Hi Hy; [injection Hy as <-; exact Hx|].
      apply (Hshort i y); [lia | exact Hy].
Qed.

(** With [MIN_CHUNK_WORDS - 1 <= overlap], a built chunk that the filter
    drops gives all its words to the chunk built after it. *)
Lemma dropped_words_move t target_words overlap n :
  MIN_CHUNK_WORDS - 1 <= overlap ->
  (forall i x, (i < n)%nat -> built_chunks t target_words overlap !! i = Some x ->
               long_enough x = false) ->
  (n < length (built_chunks t target_words overlap))%nat ->
  forall k i c w,
    (i + k = n)%nat -> built_chunks t target_words overlap !! i = Some c ->
    w ∈ split c ->
    exists d, built_chunks t target_words overlap !! n = Some d /\ w ∈ split d.
Proof.
  intros HO Hshort Hn. unfold MIN_CHUNK_WORDS in *.
  assert (0 < overlap) as Hpos by lia.
  destruct (built_chunks_inv target_words overlap Hpos t) as [Hchain _].
  set (cs := built_chunks t target_words overlap) in *.
  induction k as [|k IH]; intros i c w Hik Hc Hw.
  - replace n with i by lia. exists c. auto.
  - destruct (lookup_lt_is_Some_2 cs (S i)) as [d Hd]; [lia|].
    apply (IH (S i) d w); [lia | exact Hd |].
    pose proof (Hchain i c d Hc Hd) as [rest Hrest]. rewrite Hrest.
    apply elem_of_app. left.
    assert (long_enough c = false) as Hlen by (apply (Hshort i c); [lia | exact Hc]).
    unfold long_enough, MIN_CHUNK_WORDS in Hlen. apply Z.leb_gt in Hlen.
    rewrite RagFacts.last_n_all by lia. exact Hw.
Qed.

Lemma filtered_chunks_words (t : text) (target_words overlap : Z) (w : text) :
  MIN_CHUNK_WORDS - 1 <= overlap ->
  text_to_chunks t target_words overlap <> [] ->
  (w ∈ split t <-> word_of_chunks (text_to_chunks t target_words overlap) w).
Proof.
  intros HO Hne. pose proof HO as HO'. unfold MIN_CHUNK_WORDS in HO'.
  assert (0 < overlap) as Hpos by lia.
  destruct (built_chunks_inv target_words overlap Hpos t) as [_ Hgrows].
  unfold text_to_chunks in *.
  destruct (filter_upward_prefix long_enough (built_chunks t target_words overlap))
    as (n & Hn & Hshort).
  { intros i c d Hc Hd. unfold long_enough, MIN_CHUNK_WORDS.
    rewrite !Z.leb_le. pose proof (Hgrows i c d Hc Hd) as Hg.
    unfold grows in Hg. lia. }
  rewrite Hn in *.
  assert (n < length (built_chunks t target_words overlap))%nat as Hlt.
  { destruct (Nat.lt_ge_cases n (length (built_chunks t target_words overlap)))
      as [H | H]; [exact H|].
    exfalso. apply Hne. apply drop_ge. exact H. }
  rewrite (built_chunks_words target_words overlap). split.
  - intros (c & Hc & Hw). apply list_elem_of_lookup in Hc as [i Hi].
    destruct (Nat.lt_ge_cases i n) as [Hin | Hin].
    + destruct (dropped_words_move t target_words overlap n HO Hshort Hlt
                  (n - i)%nat i c w ltac:(lia) Hi Hw) as (d & Hd & Hwd).
      exists d. split; [|exact Hwd]. apply list_elem_of_lookup. exists 0%nat.
      rewrite lookup_drop, Nat.add_0_r. exact Hd.
    + exists c. split; [|exact Hw]. apply list_elem_of_lookup. exists (i - n)%nat.
      rewrite lookup_drop. replace (n + (i - n))%nat with i by lia. exact Hi.
  - intros (c & Hc & Hw). exists c. split; [|exact Hw].
    exact (subseteq_drop _ _ c Hc).
Qed.

(** X1: with [MIN_CHUNK_WORDS - 1 <= overlap], whenever [text_to_chunks]
    emits a chunk, the emitted chunks hold exactly the words of the text: the
    filter loses no word. *)
Theorem text_to_chunks_keeps_words (t : text) (target_words overlap : Z) (w : text) :
  MIN_CHUNK_WORDS - 1 <= overlap ->
  text_to_chunks t target_words overlap <> [] ->
  (w ∈ split t <-> word_of_chunks (text_to_chunks t target_words overlap) w).
Proof. apply filtered_chunks_words. Qed.

Lemma text_to_chunks_keeps_words_witness :
  utf8 "ruine." ∈ split long_text <->
  word_of_chunks (text_to_chunks long_text CHUNK_WORD_TARGET CHUNK_OVERLAP_WORDS)
    (utf8 "ruine.").
Proof.
  apply (text_to_chunks_keeps_words long_text CHUNK_WORD_TARGET CHUNK_OVERLAP_WORDS
           (utf8 "ruine.")); vm_compute; discriminate.
Defined.

(** X2: the chunks staged for a document hold exactly the words of its
    enriched text: indexing a document loses no word and invents none. *)
Theorem index_document_words (doc : SiteDocument) (w : text) :
  w ∈ split (create_rich_text doc) <-> word_of_chunks (index_document doc) w.
Proof.
  unfold index_document. set (full_text := create_rich_text doc).
  destruct (document_chunks_cases full_text) as (Hvalid & Hnone & Hblank).
  destruct (strip full_text) eqn:Hs.
  - rewrite (Hblank eq_refl). apply split_nil_strip in Hs. rewrite Hs.
    split; [intros H; inversion H | intros (c & Hc & _); inversion Hc].
  - destruct (text_to_chunks full_text CHUNK_WORD_TARGET CHUNK_OVERLAP_WORDS)
      as [|c0 cs0] eqn:Hv.
    + rewrite (Hnone eq_refl) by discriminate. split.
      * intros Hw. exists full_text. split; [left | exact Hw].
      * intros (c & Hc & Hw). apply list_elem_of_singleton in Hc. subst c. exact Hw.
    + rewrite Hvalid by discriminate. rewrite <- Hv.
      apply filtered_chunks_words; [vm_compute; discriminate|].
      rewrite Hv. discriminate.
Qed.

Section Sizes.

Variables target_words overlap m : Z.

Local Abbreviation B := (Z.max target_words (Z.max overlap 0 + m)).

Lemma chunk_step_size st sentence :
  len (split sentence) <= m ->
  size_inv B st -> size_inv B (chunk_step target_words overlap st sentence).
Proof.
  intros Hm (Hcount & Hle & Hchunks & Hcur). unfold chunk_step.
  destruct (truthy (strip sentence)) eqn:Hs; cbn [negb];
    [|repeat split; assumption].
  apply truthy_true in Hs. rewrite <- split_strip in Hm.
  assert (split (strip sentence) <> []) as Hwords.
  { rewrite split_strip. intros E. apply split_nil_strip in E. contradiction. }
  pose proof (len_pos _ Hwords) as Hwc. set (s := strip sentence) in *.
  destruct ((current_word_count st + len (split s) <=? target_words)
            || negb (truthy (current_chunk st))) eqn:Hcond.
  - unfold size_inv. rewrite cur_words_mk, cur_words_snoc. cbn [chunks current_chunk
      current_word_count]. fold (cur_words st). split_and!.
    + rewrite len_app. lia.
    + apply orb_true_iff in Hcond as [H | H].
      * apply Z.leb_le in H. lia.
      * apply negb_true_iff, truthy_false in H.
        unfold cur_words in Hcount. rewrite H in Hcount. unfold len in Hcount.
        simpl in Hcount. lia.
    + exact Hchunks.
    + intros _ E. apply app_eq_nil in E as [_ E]. contradiction.
  - apply orb_false_iff in Hcond as [_ Hne].
    apply negb_false_iff in Hne. apply truthy_true in Hne.
    rewrite save_chunk_words by exact (Hcur Hne).
    assert (forall c, c ∈ chunks st ++ [strip (join [SP] (current_chunk st))] ->
                      len (split c) <= B) as Hchunks'.
    { intros c Hc. apply elem_of_app in Hc as [Hc | Hc]; [exact (Hchunks c Hc)|].
      apply list_elem_of_singleton in Hc. subst c. rewrite split_strip.
      fold (cur_words st). lia. }
    destruct (Z.ltb_spec 0 overlap) as [Hpos | Hnonpos].
    + rewrite overlap_words_eq by exact Hpos. fold (cur_words st).
      assert (split (join [SP] [join [SP] (last_n overlap (cur_words st)); s])
              = last_n overlap (cur_words st) ++ split s) as Hnew.
      { rewrite split_join. simpl. rewrite app_nil_r.
        rewrite split_join_words by apply last_n_words. reflexivity. }
      unfold size_inv. rewrite cur_words_mk. cbn [chunks current_chunk
        current_word_count app]. rewrite Hnew. split_and!.
      * rewrite len_app. reflexivity.
      * rewrite (len_last_n_min overlap Hpos). lia.
      * exact Hchunks'.
      * intros _ E. apply app_eq_nil in E as [_ E]. contradiction.
    + unfold size_inv. rewrite cur_words_mk. cbn [chunks current_chunk
        current_word_count app join]. split_and!.
      * reflexivity.
      * lia.
      * exact Hchunks'.
      * intros _. exact Hwords.
Qed.

Lemma fold_size sentences :
  forall st,
    Forall (fun s => len (split s) <= m) sentences ->
    size_inv B st ->
    size_inv B (fold_left (chunk_step target_words overlap) sentences st).
Proof.
  induction sentences as [|s ss IH]; intros st Hm I; simpl; [exact I|].
  inversion Hm; subst. apply IH; [assumption|]. apply chunk_step_size; assumption.
Qed.

Lemma built_chunks_size t c :
  0 <= m ->
  (forall s, s ∈ sentence_split t -> len (split s) <= m) ->
  c ∈ built_chunks t target_words overlap -> len (split c) <= B.
Proof.
  intros Hm0 Hm. assert (size_inv B chunker_init) as I0.
  { unfold size_inv. simpl. split_and!; try reflexivity; try congruence; try lia.
    intros x Hx. inversion Hx. }
  pose proof (fold_size (sentence_split t) chunker_init
                ltac:(apply Forall_forall; exact Hm) I0) as (Hcount & Hle & Hchunks & Hcur).
  unfold built_chunks. set (st := fold_left _ _ _) in *.
  destruct (truthy (current_chunk st)) eqn:E; [|exact (Hchunks c)].
  apply truthy_true in E. rewrite save_chunk_words by exact (Hcur E).
  intros Hc. apply elem_of_app in Hc as [Hc | Hc]; [exact (Hchunks c Hc)|].
  apply list_elem_of_singleton in Hc. subst c. rewrite split_strip.
  fold (cur_words st). lia.
Qed.

End Sizes.

(** X3: every emitted chunk has at least [MIN_CHUNK_WORDS] words and at most
    [target_words] words, or, when a sentence forces it, at most as many as
    the overlap plus the longest sentence. *)
Theorem text_to_chunks_size (t : text) (target_words overlap m : Z) :
  0 <= m ->
  (forall s, s ∈ sentence_split t -> len (split s) <= m) ->
  forall c, c ∈ text_to_chunks t target_words overlap ->
    MIN_CHUNK_WORDS <= len (split c) <= Z.max target_words (Z.max overlap 0 + m).
Proof.
  intros Hm0 Hm c Hc. unfold text_to_chunks in Hc.
  apply list_elem_of_In, filter_In in Hc as [Hc Hlong].
  apply list_elem_of_In in Hc. split.
  - unfold long_enough in Hlong. apply Z.leb_le in Hlong. exact Hlong.
  - exact (built_chunks_size target_words overlap m t c Hm0 Hm Hc).
Qed.

Lemma text_to_chunks_size_witness :
  MIN_CHUNK_WORDS <= len (split sample_s1) <= Z.max 20 (Z.max 2 0 + 16).
Proof.
  apply (text_to_chunks_size sample_text 20 2 16 ltac:(lia)).
  - apply Forall_forall. vm_compute.
    repeat (constructor; [intros H; discriminate H|]). constructor.
  - vm_compute. left.
Defined.

Section ShortText.

Variables target_words overlap : Z.

Lemma chunk_step_open W st sentence :
  len W + len (split sentence) <= target_words ->
  open_inv W st ->
  open_inv (W ++ split sentence) (chunk_step target_words overlap st sentence).
Proof.
  intros Hfit (Hchunks & Hcount & Hwords & Hcur). unfold chunk_step.
  destruct (truthy (strip sentence)) eqn:Hs; cbn [negb].
  2: { apply truthy_false, split_nil_strip in Hs. rewrite Hs, app_nil_r.
       repeat split; assumption. }
  apply truthy_true in Hs. rewrite <- (split_strip sentence) in *.
  assert (split (strip sentence) <> []) as Hne.
  { rewrite split_strip. intros E. apply split_nil_strip in E. contradiction. }
  set (s := strip sentence) in *.
  assert ((current_word_count st + len (split s) <=? target_words) = true) as ->.
  { apply Z.leb_le. rewrite Hcount, Hwords. exact Hfit. }
  simpl. unfold open_inv. rewrite cur_words_mk, cur_words_snoc.
  cbn [chunks current_chunk current_word_count]. fold (cur_words st).
  split_and!.
  - exact Hchunks.
  - rewrite len_app. lia.
  - rewrite Hwords. reflexivity.
  - intros _ E. apply app_eq_nil in E as [_ E]. contradiction.
Qed.

Lemma fold_open sentences :
  forall W st,
    len W + len (concat (List.map split sentences)) <= target_words ->
    open_inv W st ->
    open_inv (W ++ concat (List.map split sentences))
      (fold_left (chunk_step target_words overlap) sentences st).
Proof.
  induction sentences as [|s ss IH]; intros W st Hfit I; simpl in *.
  - rewrite app_nil_r. exact I.
  - rewrite len_app in Hfit. pose proof (len_nonneg (concat (List.map split ss))).
    rewrite app_assoc. apply IH.
    + rewrite len_app. lia.
    + apply chunk_step_open; [lia | exact I].
Qed.

(** A text of at most [target_words] words is built into one chunk with its
    words, or into none when it is blank. *)
Lemma built_chunks_short t :
  len (split t) <= target_words ->
  (split t = [] /\ built_chunks t target_words overlap = []) \/
  (exists c, built_chunks t target_words overlap = [c] /\ split c = split t).
Proof.
  intros Hfit.
  assert (open_inv [] chunker_init) as I0.
  { unfold open_inv. simpl. split_and!; try reflexivity. congruence. }
  pose proof (fold_open (sentence_split t) [] chunker_init) as I.
  simpl in I. rewrite sentence_split_words in I.
  specialize (I ltac:(unfold len at 1; simpl; lia) I0).
  destruct I as (Hchunks & Hcount & Hwords & Hcur).
  unfold built_chunks. set (st := fold_left _ _ _) in *.
  destruct (truthy (current_chunk st)) eqn:E.
  - right. apply truthy_true in E.
    rewrite save_chunk_words by (fold (cur_words st); rewrite Hwords; exact (Hcur E)).
    rewrite Hchunks. eexists. split; [reflexivity|].
    rewrite split_strip. exact Hwords.
  - left. apply truthy_false in E. split; [|exact Hchunks].
    rewrite <- Hwords. unfold cur_words. rewrite E. reflexivity.
Qed.

End ShortText.

(** X4: a text of at most [target_words] words is emitted as a single chunk
    with exactly its words when it has at least [MIN_CHUNK_WORDS] words, and
    as no chunk at all when it has fewer. *)
Theorem text_to_chunks_short (t : text) (target_words overlap : Z) :
  len (split t) <= target_words ->
  (MIN_CHUNK_WORDS <= len (split t) ->
   exists c, text_to_chunks t target_words overlap = [c] /\ split c = split t) /\
  (len (split t) < MIN_CHUNK_WORDS -> text_to_chunks t target_words overlap = []).
Proof.
  intros Hfit. unfold text_to_chunks.
  destruct (built_chunks_short target_words overlap t Hfit)
    as [[Hnil ->] | (c & -> & Hc)].
  - split; [|reflexivity]. rewrite Hnil. unfold MIN_CHUNK_WORDS, len. simpl. lia.
  - simpl. unfold long_enough. rewrite Hc. split.
    + intros H. apply Z.leb_le in H. rewrite H. exists c. auto.
    + intros H. apply Z.leb_gt in H. rewrite H. reflexivity.
Qed.

Lemma text_to_chunks_short_witness :
  exists c, text_to_chunks sample_s1 CHUNK_WORD_TARGET CHUNK_OVERLAP_WORDS = [c] /\
            split c = split sample_s1.
Proof.
  exact (proj1 (text_to_chunks_short sample_s1 CHUNK_WORD_TARGET
                  CHUNK_OVERLAP_WORDS ltac:(vm_compute; discriminate))
           ltac:(vm_compute; discriminate)).
Defined.

(** X5: a document whose enriched text is not blank and has at most
    [CHUNK_WORD_TARGET] words is staged as exactly one chunk, which has all
    the words of the enriched text. *)
Theorem index_document_short (doc : SiteDocument) :
  strip (create_rich_text doc) <> [] ->
  len (split (create_rich_text doc)) <= CHUNK_WORD_TARGET ->
  exists c, index_document doc = [c] /\ split c = split (create_rich_text doc).
Proof.
  intros Hne Hfit. unfold index_document. set (full_text := create_rich_text doc) in *.
  destruct (document_chunks_cases full_text) as (Hvalid & Hnone & _).
  destruct (built_chunks_short CHUNK_WORD_TARGET CHUNK_OVERLAP_WORDS full_text Hfit)
    as [[Hnil Hb] | (c & Hb & Hc)].
  - apply split_nil_strip in Hnil. contradiction.
  - unfold text_to_chunks in Hvalid, Hnone. rewrite Hb in Hvalid, Hnone. simpl in *.
    destruct (long_enough c).
    + exists c. split; [apply Hvalid; discriminate | exact Hc].
    + exists full_text. split; [apply Hnone; [reflexivity | exact Hne] | reflexivity].
Qed.

Lemma index_document_short_witness :
  exists c, index_document small_doc = [c] /\
            split c = split (create_rich_text small_doc).
Proof.
  apply (index_document_short small_doc); vm_compute; discriminate.
Defined.

(** *** The enriched text *)

Lemma contains_refl x : contains x x.
Proof. exists [], []. rewrite app_nil_r. reflexivity. Qed.

Lemma contains_trans a b c : contains a b -> contains b c -> contains a c.
Proof.
  intros (l1 & r1 & ->) (l2 & r2 & ->). exists (l2 ++ l1), (r1 ++ r2).
  rewrite <- !app_assoc. reflexivity.
Qed.

Lemma contains_app_l a x y : contains a x -> contains a (x ++ y).
Proof. intros (l & r & ->). exists l, (r ++ y). rewrite <- !app_assoc. reflexivity. Qed.

Lemma contains_app_r a x y : contains a y -> contains a (x ++ y).
Proof. intros (l & r & ->). exists (x ++ l), r. rewrite <- !app_assoc. reflexivity. Qed.

Lemma contains_join sep x parts : x ∈ parts -> contains x (join sep parts).
Proof.
  induction parts as [|p [|q rest] IH]; intros Hx.
  - inversion Hx.
  - apply list_elem_of_singleton in Hx. subst. apply contains_refl.
  - change (join sep (p :: q :: rest)) with (p ++ sep ++ join sep (q :: rest)).
    apply elem_of_cons in Hx as [-> | Hx].
    + apply contains_app_l, contains_refl.
    + apply contains_app_r, contains_app_r, IH. exact Hx.
Qed.

Lemma part_if_elem {A} (value : list A) sentence :
  value <> [] -> sentence ∈ part_if value sentence.
Proof. intros H. unfold part_if. apply truthy_true in H. rewrite H. left. Qed.

(** The sentence made for a field that is given occurs in the enriched text. *)
Ltac part_in_text :=
  unfold create_rich_text; apply contains_join;
  repeat first [ apply elem_of_app; left; apply part_if_elem; assumption
               | apply part_if_elem; assumption
               | apply elem_of_app; right ].





Lemma contains_not_blank x t : contains x t -> ~ blank x -> strip t <> [].
Proof.
  intros (l & r & ->) Hx E. apply Hx. apply split_nil_strip in E.
  apply (split_from_nil_inv [] _) in E as [_ E]. unfold blank in *.
  apply Forall_app in E as [_ E]. apply Forall_app in E as [E _]. exact E.
Qed.

Lemma index_document_nonempty doc :
  strip (create_rich_text doc) <> [] -> index_document doc <> [].
Proof.
  intros Hne. unfold index_document.
  destruct (document_chunks_cases (create_rich_text doc)) as (Hvalid & Hnone & _).
  destruct (text_to_chunks (create_rich_text doc) CHUNK_WORD_TARGET
              CHUNK_OVERLAP_WORDS) as [|c cs] eqn:Hv.
  - rewrite (Hnone eq_refl Hne). discriminate.
  - rewrite Hvalid by discriminate. discriminate.
Qed.

(** A sentence that starts with the literal [lit] is not blank. *)
Ltac literal_sentence lit :=
  apply (contains_not_blank lit);
  [ eapply contains_trans; [apply contains_app_l, contains_refl | part_in_text]
  | let H := fresh in intros H; vm_compute in H; inversion H; discriminate ].

(** X7: a document with any field that gets a sentence of its own, or with
    a description or details that are not blank, is never skipped: at least
    one chunk is staged for it. *)
Theorem index_document_has_chunk (doc : SiteDocument) :
  has_content doc -> index_document doc <> [].
Proof.
  intros H. apply index_document_nonempty.
  destruct H as [H | [H | [H | [H | [H | [H | [H | [H | [H | H]]]]]]]]].
  - literal_sentence (utf8 "Site archéologique: ").
  - literal_sentence (utf8 "Situé à ").
  - literal_sentence (utf8 "Période historique: ").
  - destruct (bool_decide (statut doc = utf8 "UNESCO")) eqn:E.
    + apply (contains_not_blank
               (utf8 "Ce site est inscrit au patrimoine mondial de l'UNESCO.")).
      * unfold create_rich_text. rewrite E. apply contains_join.
        repeat first [ apply elem_of_app; left; apply part_if_elem; assumption
                     | apply part_if_elem; assumption
                     | apply elem_of_app; right ].
      * intros Hb. vm_compute in Hb. inversion Hb. discriminate.
    + apply (contains_not_blank (utf8 "Statut: ")).
      * eapply contains_trans; [apply contains_app_l, contains_refl|].
        unfold create_rich_text. rewrite E. apply contains_join.
        repeat first [ apply elem_of_app; left; apply part_if_elem; assumption
                     | apply part_if_elem; assumption
                     | apply elem_of_app; right ].
      * intros Hb. vm_compute in Hb. inversion Hb. discriminate.
  - literal_sentence (utf8 "Coordonnées GPS: ").
  - literal_sentence (utf8 "Principaux monuments: ").
  - literal_sentence (utf8 "Horaires: ").
  - literal_sentence (utf8 "Tarif: ").
  - apply (contains_not_blank (description doc)); [|exact H].
    assert (description doc <> []) by (intros E; apply H; rewrite E; constructor).
    part_in_text.
  - apply (contains_not_blank (details doc)); [|exact H].
    assert (details doc <> []) by (intros E; apply H; rewrite E; constructor).
    part_in_text.
Qed.

Lemma index_document_has_chunk_witness : index_document small_doc <> [].
Proof.
  apply (index_document_has_chunk small_doc). left. discriminate.
Defined.

End IngestExtra.

(** ** Facts about [str] of an int *)

Module DecimalFacts.
Import Rag MoreSpec.

Lemma utf8_uint d : utf8 (NilEmpty.string_of_uint d) = uint_codes d.
Proof.
  induction d; simpl NilEmpty.string_of_uint; simpl uint_codes;
    [reflexivity | rewrite <- IHd; reflexivity ..].
Qed.

Lemma uint_codes_inj d d' : uint_codes d = uint_codes d' -> d = d'.
Proof.
  revert d'. induction d; intros d'; destruct d'; simpl; intros E;
    try discriminate E; try reflexivity;
    injection E as E; f_equal; apply IHd; exact E.
Qed.

Lemma uint_codes_digits d : Forall is_digit (uint_codes d).
Proof. induction d; simpl; constructor; try assumption; unfold is_digit; lia. Qed.

Lemma str_int_pos p : str_int (Zpos p) = uint_codes (Pos.to_uint p).
Proof.
  unfold str_int. simpl Z.to_int. unfold NilZero.string_of_int, NilZero.string_of_uint.
  pose proof (DecimalPos.Unsigned.to_uint_nonnil p) as H.
  destruct (Pos.to_uint p) eqn:E; try contradiction; rewrite <- E; apply utf8_uint.
Qed.

Lemma str_int_neg p : str_int (Zneg p) = 45%N :: uint_codes (Pos.to_uint p).
Proof.
  unfold str_int. simpl Z.to_int. unfold NilZero.string_of_int, NilZero.string_of_uint.
  pose proof (DecimalPos.Unsigned.to_uint_nonnil p) as H.
  destruct (Pos.to_uint p) eqn:E; try contradiction; rewrite <- E;
    change (utf8 (String (Ascii.Ascii true false true true false true false false) ?s)) with (45%N :: utf8 s);
    rewrite <- utf8_uint; reflexivity.
Qed.

Lemma str_int_zero : str_int 0 = [48%N].
Proof. reflexivity. Qed.

(** [str] is injective on ints. *)
Lemma str_int_inj a b : str_int a = str_int b -> a = b.
Proof.
  assert (forall p, uint_codes (Pos.to_uint p) <> [48%N]) as Hz.
  { intros p E. apply (DecimalPos.Unsigned.to_uint_nonzero p).
    apply uint_codes_inj. exact E. }
  assert (forall p q, uint_codes (Pos.to_uint p) <> 45%N :: q) as Hm.
  { intros p q E. pose proof (uint_codes_digits (Pos.to_uint p)) as H.
    rewrite E in H. inversion H as [|? ? Hd _]. unfold is_digit in Hd. lia. }
  destruct a as [|p|p], b as [|q|q];
    rewrite ?str_int_zero, ?str_int_pos, ?str_int_neg; intros E;
    try reflexivity; try discriminate E;
    try (exfalso; first [ exact (Hz _ E) | exact (Hz _ (eq_sym E))
                        | exact (Hm _ _ E) | exact (Hm _ _ (eq_sym E)) ]).
  - f_equal. apply DecimalPos.Unsigned.to_uint_inj, uint_codes_inj. exact E.
  - injection E as E. f_equal.
    apply DecimalPos.Unsigned.to_uint_inj, uint_codes_inj. exact E.
Qed.

(** [str] of a natural number is made of digits. *)
Lemma str_int_nat_digits (i : nat) : Forall is_digit (str_int (Z.of_nat i)).
Proof.
  destruct (Z.of_nat i) as [|p|p] eqn:E; [| |lia].
  - rewrite str_int_zero. repeat constructor; unfold is_digit; lia.
  - rewrite str_int_pos. apply uint_codes_digits.
Qed.

End DecimalFacts.

(** ** Facts about reading, staging and inserting the corpus *)

Module CorpusFacts.
Import Ingest Corpus MoreSpec DecimalFacts.

(** *** [read_corpus] *)

Section Reading.

Context {D : Type}.
Variable json_loads : text -> text + D.

Lemma read_lines_spec (lines : list text) : forall n st,
  docs (read_lines json_loads n lines st)
  = docs st ++ omap (line_doc json_loads) lines /\
  printed (read_lines json_loads n lines st)
  = printed st ++ warnings_from json_loads n lines.
Proof.
  induction lines as [|line rest IH]; intros n st; simpl.
  - rewrite !app_nil_r. split; reflexivity.
  - destruct (IH (S n) (read_line json_loads st n line)) as [-> ->].
    unfold read_line, line_doc, line_warning, parsed_line.
    destruct (truthy (strip line)); simpl.
    + destruct (json_loads (strip line)); simpl;
        rewrite <- ?app_assoc; split; reflexivity.
    + split; reflexivity.
Qed.

Lemma warnings_from_length (lines : list text) : forall n,
  (length (omap (line_doc json_loads) lines)
   + length (warnings_from json_loads n lines)
   = length (List.filter (fun line => truthy (strip line)) lines))%nat.
Proof.
  induction lines as [|line rest IH]; intros n; simpl; [reflexivity|].
  specialize (IH (S n)). rewrite length_app.
  unfold line_doc at 1. unfold line_warning at 1. unfold parsed_line.
  destruct (truthy (strip line)); simpl; [|exact IH].
  destruct (json_loads (strip line)); simpl;
    change (list_omap text D (line_doc json_loads) rest)
      with (omap (line_doc json_loads) rest); lia.
Qed.

End Reading.

(** *** The chunk ids *)

Lemma sep_last {A} (x : A) (a : list A) : forall b d1 d2,
  x ∉ d1 -> x ∉ d2 -> a ++ x :: d1 = b ++ x :: d2 -> a = b /\ d1 = d2.
Proof.
  induction a as [|z a IH]; intros [|y b] d1 d2 H1 H2 E; simpl in E.
  - injection E as E. split; [reflexivity | exact E].
  - injection E as _ E. exfalso. apply H1. rewrite E.
    apply elem_of_app. right. left.
  - injection E as _ E. exfalso. apply H2. rewrite <- E.
    apply elem_of_app. right. left.
  - injection E as -> E. destruct (IH b d1 d2 H1 H2 E) as [-> ->].
    split; reflexivity.
Qed.

Lemma underscore_not_digit (i : nat) : 95%N ∉ Rag.str_int (Z.of_nat i).
Proof.
  intros H. pose proof (str_int_nat_digits i) as Hd.
  rewrite Forall_forall in Hd. specialize (Hd _ H). unfold is_digit in Hd. lia.
Qed.

(** Two chunk ids are equal only for the same id string and the same index. *)
Lemma chunk_uid_of_inj a i b j :
  chunk_uid_of a i = chunk_uid_of b j -> str_id a = str_id b /\ i = j.
Proof.
  unfold chunk_uid_of.
  change (utf8 "::chunk_") with ([58; 58; 99; 104; 117; 110; 107]%N ++ [95%N]).
  rewrite <- !(app_assoc _ [95%N]). simpl ([95%N] ++ _). rewrite !app_assoc.
  intros E. apply sep_last in E; try apply underscore_not_digit.
  destruct E as [E1 E2]. apply app_inv_tail in E1.
  apply str_int_inj in E2. split; [exact E1 | lia].
Qed.

Section StagingFacts.

Context {E : Type}.
Variable embed : text -> E.

Lemma stage_chunks_spec id doc (chunks : list text) : forall i st,
  to_add (stage_chunks embed id doc i chunks st)
  = to_add st ++ staged_for embed id doc i chunks /\
  global_chunk_id (stage_chunks embed id doc i chunks st)
  = global_chunk_id st + len chunks.
Proof.
  induction chunks as [|c rest IH]; intros i st; simpl.
  - rewrite app_nil_r. unfold len. simpl. split; [reflexivity | lia].
  - destruct (IH (S i) {| to_add := to_add st
                            ++ [{| chunk_uid := chunk_uid_of id i;
                                   chunk_text := c;
                                   chunk_meta := chunk_metadata id doc;
                                   chunk_embedding := embed c |}];
                          global_chunk_id := global_chunk_id st + 1 |})
      as [-> ->]. simpl.
    rewrite <- app_assoc. split; [reflexivity | unfold len; simpl; lia].
Qed.

Lemma stage_document_spec st doc :
  to_add (stage_document embed st doc)
  = to_add st
    ++ staged_for embed (effective_id (global_chunk_id st) doc) doc 0
         (index_document (rec_fields doc)) /\
  global_chunk_id (stage_document embed st doc)
  = global_chunk_id st + len (index_document (rec_fields doc)).
Proof.
  unfold stage_document, index_document, document_chunks, effective_id.
  destruct (negb (truthy (strip (create_rich_text (rec_fields doc))))).
  - simpl. rewrite app_nil_r. unfold len. simpl. split; [reflexivity | lia].
  - apply stage_chunks_spec.
Qed.

Lemma stage_fold_spec (docs : list CorpusRecord) : forall st,
  to_add (fold_left (stage_document embed) docs st)
  = to_add st ++ staged_from embed (global_chunk_id st) docs /\
  global_chunk_id (fold_left (stage_document embed) docs st)
  = global_chunk_id st + len (staged_chunks (List.map rec_fields docs)).
Proof.
  induction docs as [|doc rest IH]; intros st; simpl.
  - rewrite app_nil_r. unfold staged_chunks, len. simpl.
    split; [reflexivity | lia].
  - destruct (IH (stage_document embed st doc)) as [-> ->].
    destruct (stage_document_spec st doc) as [-> ->].
    rewrite <- app_assoc. split; [reflexivity|].
    unfold staged_chunks. simpl. rewrite len_app. lia.
Qed.

Lemma stage_all_spec (docs : list CorpusRecord) :
  to_add (stage_all embed docs) = staged_from embed 0 docs.
Proof. unfold stage_all. destruct (stage_fold_spec docs {| to_add := []; global_chunk_id := 0 |}) as [-> _]. reflexivity. Qed.


Lemma staged_for_uid id doc (chunks : list text) : forall i,
  chunk_uid <$> staged_for embed id doc i chunks
  = chunk_uid_of id <$> seq i (length chunks).
Proof. induction chunks as [|c rest IH]; intros i; simpl; [|rewrite IH]; reflexivity. Qed.




Lemma staged_from_uid (docs : list CorpusRecord) u : forall g,
  u ∈ chunk_uid <$> staged_from embed g docs ->
  exists id i, u = chunk_uid_of id i /\ id ∈ effective_ids g docs.
Proof.
  induction docs as [|doc rest IH]; intros g H; simpl in H.
  - inversion H.
  - rewrite fmap_app in H. apply elem_of_app in H as [H | H].
    + rewrite staged_for_uid in H. apply list_elem_of_fmap in H as (i & -> & Hi).
      exists (effective_id g doc), i. split; [reflexivity|]. simpl.
      destruct (index_document (rec_fields doc)); [inversion Hi|].
      simpl. left.
    + destruct (IH _ H) as (id & i & -> & Hid). exists id, i.
      split; [reflexivity|]. simpl. apply elem_of_app. right. exact Hid.
Qed.

(** The chunk ids are pairwise distinct when the documents that stage a
    chunk have pairwise distinct id strings. *)
Lemma staged_from_NoDup (docs : list CorpusRecord) : forall g,
  NoDup (str_id <$> effective_ids g docs) ->
  NoDup (chunk_uid <$> staged_from embed g docs).
Proof.
  induction docs as [|doc rest IH]; intros g H; simpl in *.
  - constructor.
  - rewrite fmap_app in H. rewrite fmap_app.
    apply NoDup_app in H as (H1 & H2 & H3).
    apply NoDup_app. split; [|split].
    + rewrite staged_for_uid. apply NoDup_fmap_2_strong; [|apply NoDup_seq].
      intros x y _ _ Exy. apply chunk_uid_of_inj in Exy. tauto.
    + intros u Hu Hrest. rewrite staged_for_uid in Hu.
      apply list_elem_of_fmap in Hu as (i & -> & Hi).
      apply staged_from_uid in Hrest as (id & j & Eu & Hid).
      apply chunk_uid_of_inj in Eu as [Eid _].
      apply (H2 (str_id (effective_id g doc))).
      * destruct (index_document (rec_fields doc)); [inversion Hi|]. simpl. left.
      * rewrite Eid. apply list_elem_of_fmap. exists id. split; [reflexivity | exact Hid].
    + apply IH. exact H3.
Qed.

End StagingFacts.

(** Without ids in the corpus, the ids given to the documents are the values
    of the counter, which grows at each document that stages a chunk. *)
Lemma effective_ids_counter (docs : list CorpusRecord) : forall g,
  (forall doc, doc ∈ docs -> rec_id doc = None) ->
  (forall id, id ∈ effective_ids g docs -> exists n, id = IdInt n /\ g <= n) /\
  NoDup (str_id <$> effective_ids g docs).
Proof.
  induction docs as [|doc rest IH]; intros g Hnone; simpl.
  - split; [intros id H; inversion H | constructor].
  - assert (rec_id doc = None) as Hdoc by (apply Hnone; left).
    destruct (IH (g + len (index_document (rec_fields doc)))) as [Hge Hnd].
    { intros d Hd. apply Hnone. right. exact Hd. }
    pose proof (IngestFacts.len_nonneg (index_document (rec_fields doc))) as Hlen.
    split.
    + intros id H. apply elem_of_app in H as [H | H].
      * destruct (truthy _); [|inversion H].
        apply list_elem_of_singleton in H as ->. unfold effective_id.
        rewrite Hdoc. simpl. exists g. split; [reflexivity | lia].
      * destruct (Hge _ H) as (n & -> & Hn). exists n. split; [reflexivity | lia].
    + rewrite fmap_app. apply NoDup_app. split; [|split; [|exact Hnd]].
      * destruct (truthy _); simpl; [apply NoDup_singleton | constructor].
      * intros s Hs Hrest. destruct (truthy _) eqn:Ecs; [|inversion Hs].
        simpl in Hs. apply list_elem_of_singleton in Hs as ->.
        apply list_elem_of_fmap in Hrest as (id & Eid & Hid).
        destruct (Hge _ Hid) as (n & -> & Hn). unfold effective_id in Eid.
        rewrite Hdoc in Eid. simpl in Eid. apply str_int_inj in Eid.
        apply truthy_true, IngestFacts.len_pos in Ecs. lia.
Qed.


(** *** The metadata of a chunk, as the retrieval reads it *)



(** *** The batches *)

Lemma slice_fmap {A B} (f : A -> B) i j (l : list A) :
  slice i j (f <$> l) = f <$> slice i j l.
Proof. unfold slice. rewrite fmap_take, fmap_drop. reflexivity. Qed.

Lemma batch_concat {A} (l : list A) (b : nat) : (0 < b)%nat -> forall m s,
  concat (List.map (fun k => slice (k * b) (Nat.min (k * b + b) (length l)) l)
            (seq s m))
  = take (m * b) (drop (s * b) l).
Proof.
  intros Hb. induction m as [|m IH]; intros s; simpl.
  - reflexivity.
  - rewrite IH. unfold slice.
    replace (take (Nat.min (s * b + b) (length l) - s * b) (drop (s * b) l))
      with (take b (drop (s * b) l)).
    + rewrite <- take_take_drop. rewrite drop_drop. do 3 f_equal. lia.
    + destruct (Nat.le_gt_cases (s * b + b) (length l)) as [Hle | Hgt].
      * f_equal. lia.
      * rewrite !take_ge; [reflexivity | rewrite length_drop; lia ..].
Qed.

Lemma batch_count (n b : nat) : (0 < b)%nat ->
  let c := ((n + b - 1) / b)%nat in
  (n <= c * b)%nat /\ (forall k, k < c -> k * b < n)%nat.
Proof.
  intros Hb c.
  pose proof (Nat.div_mod (n + b - 1) b ltac:(lia)) as Hdm.
  pose proof (Nat.mod_upper_bound (n + b - 1) b ltac:(lia)) as Hr.
  fold c in Hdm. split; [nia|]. intros k Hk.
  assert (S k * b <= c * b)%nat as Hkc by (apply Nat.mul_le_mono_r; lia).
  simpl in Hkc. nia.
Qed.

(** *** The properties of the ingestion *)

Lemma warnings_from_lookup {D} (json_loads : text -> text + D)
    (lines : list text) : forall n i line w,
  lines !! i = Some line ->
  line_warning json_loads (n + i) line = Some w ->
  w ∈ warnings_from json_loads n lines.
Proof.
  induction lines as [|l rest IH]; intros n i line w Hi Hw; [inversion Hi|].
  simpl. apply elem_of_app. destruct i as [|i]; simpl in Hi.
  - injection Hi as ->. left. rewrite Nat.add_0_r in Hw. rewrite Hw. simpl. left.
  - right. apply (IH (S n) i line w Hi).
    replace (S n + i)%nat with (n + S i)%nat by lia. exact Hw.
Qed.

(** X8: [read_corpus]: the records returned are those of the lines that are
    not blank and that the decoder accepts, in the order of the file; a line
    that the decoder rejects is reported with its number, counted from 1,
    and the lines after it are still read; every line that is not blank is
    either loaded or reported. *)
Theorem read_corpus_lines {D} (json_loads : text -> text + D)
    (lines : list text) :
  let r := read_corpus json_loads lines in
  docs r = omap (line_doc json_loads) lines /\
  (forall i line e, lines !! i = Some line ->
     parsed_line json_loads line = Some (inl e) ->
     json_warning (S i) e ∈ printed r) /\
  (length (docs r) + length (printed r)
   = length (List.filter (fun line => truthy (strip line)) lines))%nat.
Proof.
  unfold read_corpus.
  destruct (read_lines_spec json_loads lines 1 {| docs := []; printed := [] |})
    as [Ed Ep].
  simpl in Ed, Ep. cbv zeta. rewrite Ed, Ep. split; [reflexivity | split].
  - intros i line e Hi He.
    apply (warnings_from_lookup json_loads lines 1 i line _ Hi).
    unfold line_warning. rewrite He. reflexivity.
  - apply warnings_from_length.
Qed.


(** X10: In a corpus whose records have no [id], the chunk ids passed to
    the store are pairwise distinct. *)
Theorem chunk_uids_distinct {E} (embed : text -> E) (docs : list CorpusRecord) :
  (forall doc, doc ∈ docs -> rec_id doc = None) ->
  NoDup (chunk_uid <$> to_add (stage_all embed docs)).
Proof.
  intros Hnone. rewrite stage_all_spec. apply staged_from_NoDup.
  apply effective_ids_counter. exact Hnone.
Qed.

Lemma chunk_uids_distinct_witness :
  NoDup (chunk_uid <$> to_add (stage_all (fun t => t) [sample_record; sample_record])).
Proof.
  apply (chunk_uids_distinct (fun t => t) [sample_record; sample_record]).
  intros doc H. repeat (apply elem_of_cons in H as [-> | H]; [reflexivity|]).
  inversion H.
Defined.



(** X12: A corpus that mixes records with and without [id] can give the
    same chunk id twice: when the first record has no id, the second has
    the id 0 (as an int or as the string), and both stage a chunk. *)
Theorem chunk_uids_collide {E} (embed : text -> E) (d1 d2 : CorpusRecord)
    (rest : list CorpusRecord) (id : doc_id) :
  rec_id d1 = None ->
  rec_id d2 = Some id -> str_id id = utf8 "0" ->
  index_document (rec_fields d1) <> [] ->
  index_document (rec_fields d2) <> [] ->
  ~ NoDup (chunk_uid <$> to_add (stage_all embed (d1 :: d2 :: rest))).
Proof.
  intros H1 H2 Hid Hc1 Hc2 Hnd. rewrite stage_all_spec in Hnd. simpl in Hnd.
  unfold effective_id in Hnd. rewrite H1, H2 in Hnd. simpl in Hnd.
  destruct (index_document (rec_fields d1)) as [|c1 cs1]; [congruence|].
  destruct (index_document (rec_fields d2)) as [|c2 cs2]; [congruence|].
  simpl in Hnd. apply NoDup_cons in Hnd as [Hnotin _]. apply Hnotin.
  rewrite fmap_app. apply elem_of_app. right. rewrite fmap_cons. simpl.
  unfold chunk_uid_of. rewrite Hid. left.
Qed.

Lemma chunk_uids_collide_witness :
  ~ NoDup (chunk_uid <$> to_add (stage_all (fun t => t)
                                   [sample_record; sample_record_zero])).
Proof.
  apply (chunk_uids_collide (fun t => t) sample_record sample_record_zero []
           (IdStr (utf8 "0")));
    [reflexivity | reflexivity | reflexivity | vm_compute; discriminate ..].
Defined.



Lemma batches_fmap_starts {A B} (f : A -> B) (l : list A) (starts : list nat) :
  let fl : list B := f <$> l in
  List.map (fun i => slice i (Nat.min (i + BATCH_SIZE) (length fl)) fl) starts
  = fmap (M:=list) (fmap (M:=list) f)
      (List.map (fun i => slice i (Nat.min (i + BATCH_SIZE) (length l)) l) starts).
Proof.
  cbv zeta. induction starts as [|i starts IH]; cbn [List.map]; [reflexivity|].
  rewrite fmap_cons, IH, slice_fmap, length_fmap. reflexivity.
Qed.

(** X14: The batch insertion passes every staged entry to the store exactly
    once and in order: the batches concatenate to the whole list, each batch
    has between 1 and [BATCH_SIZE] entries, and the four parallel lists are
    cut at the same places. *)
Theorem batches_partition {A} (l : list A) :
  concat (batches l) = l /\
  Forall (fun b => (1 <= length b <= BATCH_SIZE)%nat) (batches l) /\
  forall {B} (f : A -> B),
    batches (fmap (M:=list) f l) = fmap (M:=list) (fmap (M:=list) f) (batches l).
Proof.
  assert (0 < BATCH_SIZE)%nat as Hb by (unfold BATCH_SIZE; lia).
  destruct (batch_count (length l) BATCH_SIZE Hb) as [Hcover Hstart].
  unfold batches, batch_starts. split; [|split].
  - rewrite List.map_map.
    rewrite (batch_concat l BATCH_SIZE Hb _ 0).
    change (drop (0 * BATCH_SIZE) l) with l. apply take_ge. exact Hcover.
  - apply Forall_forall. intros b Hin. apply list_elem_of_In in Hin.
    apply in_map_iff in Hin as (i & <- & Hin).
    apply in_map_iff in Hin as (k & <- & Hin).
    apply in_seq in Hin. specialize (Hstart k ltac:(lia)).
    unfold slice. rewrite length_take, length_drop. lia.
  - intros B f. rewrite length_fmap.
    pose proof (batches_fmap_starts f l
                  (List.map (fun k => (k * BATCH_SIZE)%nat)
                     (seq 0 ((length l + BATCH_SIZE - 1) / BATCH_SIZE)%nat))) as H.
    cbv zeta in H. rewrite length_fmap in H. exact H.
Qed.

End CorpusFacts.

(** ** More facts about the chatbot *)

Module RagExtra.
Import Rag RagSpec RagFacts Status MoreSpec ChatSpec.

(** *** The window of the history *)

Lemma last_n_last_n {A} (k n : Z) (l : list A) :
  0 <= k <= n -> last_n k (last_n n l) = last_n k l.
Proof.
  intros H. unfold last_n. rewrite length_drop, drop_drop. f_equal. lia.
Qed.

Lemma last_n_app_two {A} (k : Z) (l : list A) (x y : A) :
  2 <= k -> last_n k (l ++ [x; y]) = last_n (k - 2) l ++ [x; y].
Proof.
  intros H. unfold last_n. rewrite length_app. simpl length.
  rewrite drop_app.
  replace (length l + 2 - Z.to_nat k)%nat with (length l - Z.to_nat (k - 2))%nat
    by lia.
  replace (length l - Z.to_nat (k - 2) - length l)%nat with 0%nat by lia.
  reflexivity.
Qed.

Lemma copied_id (messages : list Message) : copied messages = messages.
Proof.
  unfold copied. induction messages as [|[r c] rest IH]; simpl; [|rewrite IH];
    reflexivity.
Qed.

Lemma build_messages_eq query context w :
  build_messages query context w
  = (Ok (prompt_messages (conversation_history w) query context), w).
Proof. reflexivity. Qed.

Lemma prompt_messages_eq history query context :
  prompt_messages history query context
  = system_turn :: last_n MAX_HISTORY_MESSAGES history
    ++ [user_turn (user_prompt query context)].
Proof.
  unfold prompt_messages. fold (copied (last_n MAX_HISTORY_MESSAGES history)).
  rewrite copied_id. reflexivity.
Qed.

(** X15: The prompt sent to the model holds the system prompt, the last
    [MAX_HISTORY_MESSAGES] entries of the history and the question with the
    retrieved context, so at most [MAX_HISTORY_MESSAGES + 2] messages; and
    cutting the history to its last [n] entries, for any [n] of at least
    [MAX_HISTORY_MESSAGES], does not change the prompt: the cut to
    [MAX_HISTORY_MESSAGES * 2] entries that [answer] makes is never seen by
    the model. *)
Theorem build_messages_window (query context : text) (w : World) :
  exists msgs,
    build_messages query context w = (Ok msgs, w) /\
    msgs = system_turn :: last_n MAX_HISTORY_MESSAGES (conversation_history w)
           ++ [user_turn (user_prompt query context)] /\
    len msgs = 2 + Z.min MAX_HISTORY_MESSAGES (len (conversation_history w)) /\
    forall n, MAX_HISTORY_MESSAGES <= n ->
      fst (build_messages query context
             {| conversation_history := last_n n (conversation_history w);
                calls := calls w |})
      = Ok msgs.
Proof.
  exists (prompt_messages (conversation_history w) query context).
  split; [apply build_messages_eq | split; [apply prompt_messages_eq | split]].
  - rewrite prompt_messages_eq. unfold len, last_n. simpl length.
    rewrite length_app, length_drop. simpl length. unfold MAX_HISTORY_MESSAGES. lia.
  - intros n Hn. rewrite build_messages_eq. simpl. f_equal.
    rewrite !prompt_messages_eq. rewrite last_n_last_n; [reflexivity|].
    unfold MAX_HISTORY_MESSAGES in *. lia.
Qed.

(** *** The ways [answer] ends *)

(** X16: When the retrieval finds a context and the call to the generation
    service raises, [answer] does not raise: it returns the message of the
    handler as the answer, with the retrieved sources, no token and no
    latency, and it records the question and that message in the history as
    an exchange. *)
Theorem answer_generation_failure
    (cq : list Call -> text -> Z -> res QueryResult)
    (rp : list Call -> list Message -> res (Response * Z))
    (query : pyval) (top_k : Z) (w : World)
    (results : QueryResult) (ctx : text) (srcs : list RetrievedSource)
    (e : pyexn) :
  sanitize_input query <> [] ->
  cq (calls w) (sanitize_input query) top_k = Ok results ->
  process_results results = Ok (ctx, srcs) ->
  ctx <> [] ->
  rp (calls w ++ [CallQuery (sanitize_input query) top_k])
     (prompt_messages (conversation_history w) (sanitize_input query) ctx)
  = Raise e ->
  answer cq rp query top_k w
  = (Ok (handled_message e, srcs, 0, 0),
     {| conversation_history :=
          last_n (MAX_HISTORY_MESSAGES * 2)
            (conversation_history w
             ++ [user_turn (sanitize_input query);
                 assistant_turn (handled_message e)]);
        calls :=
          calls w
          ++ [CallQuery (sanitize_input query) top_k;
              CallPost (prompt_messages (conversation_history w)
                          (sanitize_input query) ctx)] |}).
Proof.
  intros Hq Hcq Hpr Hctx Hrp. rewrite answer_eq. cbv zeta.
  apply truthy_true in Hq. rewrite Hq. cbn [negb].
  rewrite retrieve_documents_eq, Hcq, Hpr.
  apply truthy_true in Hctx. rewrite Hctx. cbn [negb].
  rewrite generate_response_eq. cbn [log_call calls conversation_history].
  rewrite Hrp. unfold handled. rewrite history_after_eq.
  rewrite <- app_assoc. reflexivity.
Qed.

Lemma answer_generation_failure_witness :
  answer (sample_store sample_results) offline_service (PyStr sample_query) 5
    new_chatbot
  = (Ok (handled_message connection_refused,
         [dougga_source; el_jem_source], 0, 0),
     {| conversation_history :=
          last_n (MAX_HISTORY_MESSAGES * 2)
            (conversation_history new_chatbot
             ++ [user_turn (sanitize_input (PyStr sample_query));
                 assistant_turn (handled_message connection_refused)]);
        calls :=
          calls new_chatbot
          ++ [CallQuery (sanitize_input (PyStr sample_query)) 5;
              CallPost (prompt_messages (conversation_history new_chatbot)
                          (sanitize_input (PyStr sample_query))
                          sample_context)] |}).
Proof.
  apply (answer_generation_failure (sample_store sample_results) offline_service
           (PyStr sample_query) 5 new_chatbot sample_results sample_context
           [dougga_source; el_jem_source] connection_refused).
  - vm_compute. discriminate.
  - reflexivity.
  - vm_compute. reflexivity.
  - vm_compute. discriminate.
  - reflexivity.
Defined.

(** X17: [answer] raises only when the retrieval does: the query of the
    store raised, or its result was not well formed and reading it raised.
    The exception is that of the retrieval, the history is unchanged and
    the generation service is not called. *)
Theorem answer_raises
    (cq : list Call -> text -> Z -> res QueryResult)
    (rp : list Call -> list Message -> res (Response * Z))
    (query : pyval) (top_k : Z) (w w' : World) (e : pyexn) :
  answer cq rp query top_k w = (Raise e, w') ->
  sanitize_input query <> [] /\
  w' = log_call (CallQuery (sanitize_input query) top_k) w /\
  (cq (calls w) (sanitize_input query) top_k = Raise e \/
   exists results,
     cq (calls w) (sanitize_input query) top_k = Ok results /\
     process_results results = Raise e /\ ~ well_formed results).
Proof.
  rewrite answer_eq. cbv zeta.
  destruct (truthy (sanitize_input query)) eqn:Hq; cbn [negb]; [|discriminate].
  apply truthy_true in Hq. rewrite retrieve_documents_eq.
  destruct (cq (calls w) (sanitize_input query) top_k) as [results|e0] eqn:Hcq.
  - destruct (process_results results) as [[ctx srcs]|e0] eqn:Hpr.
    + destruct (negb (truthy ctx)); [discriminate|].
      rewrite generate_response_eq.
      destruct (match rp _ _ with Ok _ => _ | Raise _ => _ end) as [[a t] l].
      discriminate.
    + intros [= <- <-]. split; [exact Hq | split; [reflexivity|]].
      right. exists results. split; [reflexivity | split; [exact Hpr|]].
      intros Hwf. apply process_results_returns in Hwf as (c & s & Hok).
      congruence.
  - intros [= <- <-]. split; [exact Hq | split; [reflexivity|]].
    left. reflexivity.
Qed.

Lemma answer_raises_witness :
  sanitize_input (PyStr sample_query) <> [] /\
  log_call (CallQuery sample_query 5) new_chatbot
  = log_call (CallQuery (sanitize_input (PyStr sample_query)) 5) new_chatbot /\
  (failing_store (calls new_chatbot) (sanitize_input (PyStr sample_query)) 5
   = Raise store_error \/
   exists results,
     failing_store (calls new_chatbot) (sanitize_input (PyStr sample_query)) 5
     = Ok results /\
     process_results results = Raise store_error /\ ~ well_formed results).
Proof.
  apply (answer_raises failing_store offline_service (PyStr sample_query) 5
           new_chatbot (log_call (CallQuery sample_query 5) new_chatbot)
           store_error).
  vm_compute. reflexivity.
Defined.

Lemma calls_grow_two (l : list Call) (a b : Call) : l <> l ++ [a; b].
Proof.
  intros H. apply (f_equal length) in H. rewrite length_app in H. simpl in H. lia.
Qed.

(** When [answer] logs a query of the store and a POST, it has recorded the
    exchange. *)
Lemma answer_posted cq rp query top_k w r w' m :
  answer cq rp query top_k w = (r, w') ->
  calls w' = calls w ++ [CallQuery (sanitize_input query) top_k; CallPost m] ->
  exists ctx srcs a t l,
    r = Ok (a, srcs, t, l) /\
    m = prompt_messages (conversation_history w) (sanitize_input query) ctx /\
    conversation_history w'
    = history_after (conversation_history w) (sanitize_input query) a.
Proof.
  intros Ha Hc. apply answer_outcome in Ha. cbv zeta in Ha.
  destruct Ha as [(_ & _ & ->)
                 | [(_ & -> & _)
                   | (ctx & srcs & a & t & l & _ & _ & _ & -> & Hh & Hcalls)]].
  - exfalso. exact (calls_grow_two _ _ _ Hc).
  - exfalso. simpl in Hc. apply app_inv_head in Hc. discriminate.
  - rewrite Hcalls in Hc. apply app_inv_head in Hc. injection Hc as <-.
    exists ctx, srcs, a, t, l. split; [reflexivity | split; [reflexivity | exact Hh]].
Qed.

(** X18: A follow-up question is sent with the exchange before it: when two
    calls to [answer] both reach the generation service, the messages of
    the second POST end with the first question as sanitised, the answer
    that the first call returned, and the second question with its
    context. *)
Theorem answer_follow_up
    (cq : list Call -> text -> Z -> res QueryResult)
    (rp : list Call -> list Message -> res (Response * Z))
    (query1 query2 : pyval) (k1 k2 : Z) (w w1 w2 : World)
    (r1 r2 : res (text * list RetrievedSource * Z * Z))
    (m1 m2 : list Message) :
  answer cq rp query1 k1 w = (r1, w1) ->
  calls w1 = calls w ++ [CallQuery (sanitize_input query1) k1; CallPost m1] ->
  answer cq rp query2 k2 w1 = (r2, w2) ->
  calls w2 = calls w1 ++ [CallQuery (sanitize_input query2) k2; CallPost m2] ->
  exists a1 srcs t l pre ctx2,
    r1 = Ok (a1, srcs, t, l) /\
    m2 = pre ++ [user_turn (sanitize_input query1); assistant_turn a1;
                 user_turn (user_prompt (sanitize_input query2) ctx2)].
Proof.
  intros Ha1 Hc1 Ha2 Hc2.
  destruct (answer_posted _ _ _ _ _ _ _ _ Ha1 Hc1)
    as (ctx1 & srcs & a1 & t & l & -> & _ & Hh1).
  destruct (answer_posted _ _ _ _ _ _ _ _ Ha2 Hc2)
    as (ctx2 & _ & _ & _ & _ & _ & -> & _).
  exists a1, srcs, t, l,
    (system_turn :: last_n (MAX_HISTORY_MESSAGES - 2) (conversation_history w)),
    ctx2.
  split; [reflexivity|].
  rewrite prompt_messages_eq, Hh1, history_after_eq.
  rewrite last_n_last_n by (unfold MAX_HISTORY_MESSAGES; lia).
  fold (user_turn (sanitize_input query1)). fold (assistant_turn a1).
  rewrite last_n_app_two by (unfold MAX_HISTORY_MESSAGES; lia).
  rewrite <- app_assoc. reflexivity.
Qed.

Lemma answer_follow_up_witness :
  exists a1 srcs t l pre ctx2,
    Ok (msg_unreachable, [dougga_source; el_jem_source], 0, 0)
    = Ok (a1, srcs, t, l) /\
    prompt_messages (conversation_history sample_world_after) sample_query
      sample_context
    = pre ++ [user_turn (sanitize_input (PyStr sample_query)); assistant_turn a1;
              user_turn (user_prompt (sanitize_input (PyStr sample_query)) ctx2)].
Proof.
  apply (answer_follow_up (sample_store sample_results) offline_service
           (PyStr sample_query) (PyStr sample_query) 5 5
           new_chatbot sample_world_after
           (snd (answer (sample_store sample_results) offline_service
                   (PyStr sample_query) 5 sample_world_after))
           (Ok (msg_unreachable, [dougga_source; el_jem_source], 0, 0))
           (fst (answer (sample_store sample_results) offline_service
                   (PyStr sample_query) 5 sample_world_after))
           (prompt_messages [] sample_query sample_context)
           (prompt_messages (conversation_history sample_world_after)
              sample_query sample_context)).
  - vm_compute. reflexivity.
  - vm_compute. reflexivity.
  - apply surjective_pairing.
  - vm_compute. reflexivity.
Defined.

(** X19: Reopening a chat restores its last [MAX_HISTORY_MESSAGES] messages
    only: after [load_history_from_messages], an [answer] that reaches the
    generation service sends the system prompt, the last
    [MAX_HISTORY_MESSAGES] stored messages and the question, and the history
    becomes those messages followed by the new exchange. *)
Theorem load_then_answer
    (cq : list Call -> text -> Z -> res QueryResult)
    (rp : list Call -> list Message -> res (Response * Z))
    (messages : list Message) (query : pyval) (top_k : Z) (w w' : World)
    (r : res (text * list RetrievedSource * Z * Z)) (m : list Message) :
  answer cq rp query top_k (snd (load_history_from_messages messages w))
  = (r, w') ->
  calls w' = calls w ++ [CallQuery (sanitize_input query) top_k; CallPost m] ->
  exists ctx srcs a t l,
    r = Ok (a, srcs, t, l) /\
    m = system_turn :: last_n MAX_HISTORY_MESSAGES messages
        ++ [user_turn (user_prompt (sanitize_input query) ctx)] /\
    conversation_history w'
    = last_n MAX_HISTORY_MESSAGES messages
      ++ [user_turn (sanitize_input query); assistant_turn a].
Proof.
  intros Ha Hc.
  destruct (answer_posted _ _ _ _ _ _ _ _ Ha Hc)
    as (ctx & srcs & a & t & l & -> & -> & Hh).
  exists ctx, srcs, a, t, l. split; [reflexivity|].
  cbn [load_history_from_messages set_history snd conversation_history] in *.
  fold (copied (last_n MAX_HISTORY_MESSAGES messages)) in *.
  rewrite copied_id in *.
  assert (len (last_n MAX_HISTORY_MESSAGES messages) <= MAX_HISTORY_MESSAGES)
    as Hlen by (apply len_last_n_le; unfold MAX_HISTORY_MESSAGES; lia).
  split.
  - rewrite prompt_messages_eq. rewrite last_n_all by exact Hlen. reflexivity.
  - rewrite Hh, history_after_eq. apply last_n_all.
    rewrite TextFacts.len_app. unfold len at 2. simpl length.
    unfold MAX_HISTORY_MESSAGES in *. lia.
Qed.

Lemma load_then_answer_witness :
  exists ctx srcs a t l,
    fst (answer (sample_store sample_results) offline_service
           (PyStr sample_query) 5
           (snd (load_history_from_messages stored_messages new_chatbot)))
    = Ok (a, srcs, t, l) /\
    prompt_messages (drop 2 stored_messages) sample_query sample_context
    = system_turn :: last_n MAX_HISTORY_MESSAGES stored_messages
      ++ [user_turn (user_prompt (sanitize_input (PyStr sample_query)) ctx)] /\
    conversation_history
      (snd (answer (sample_store sample_results) offline_service
              (PyStr sample_query) 5
              (snd (load_history_from_messages stored_messages new_chatbot))))
    = last_n MAX_HISTORY_MESSAGES stored_messages
      ++ [user_turn (sanitize_input (PyStr sample_query)); assistant_turn a].
Proof.
  apply (load_then_answer (sample_store sample_results) offline_service
           stored_messages (PyStr sample_query) 5 new_chatbot).
  - apply surjective_pairing.
  - vm_compute. reflexivity.
Defined.

(** *** The retrieved context *)

Lemma increasing_ge (idx : list nat) :
  increasing idx -> forall a x, idx !! a = Some x -> (a <= x)%nat.
Proof.
  intros Hinc a. induction a as [|a IH]; intros x Hx; [lia|].
  destruct (idx !! a) as [y|] eqn:Hy.
  - specialize (IH y eq_refl). specialize (Hinc a (S a) y x ltac:(lia) Hy Hx). lia.
  - apply lookup_ge_None in Hy. apply lookup_lt_Some in Hx. lia.
Qed.

Lemma increasing_length (idx : list nat) (n : nat) :
  increasing idx -> Forall (fun i => (i < n)%nat) idx -> (length idx <= n)%nat.
Proof.
  intros Hinc Hlt. destruct (length idx) as [|k] eqn:Hlen; [lia|].
  destruct (lookup_lt_is_Some_2 idx k ltac:(lia)) as [x Hx].
  pose proof (increasing_ge idx Hinc k x Hx).
  rewrite Forall_forall in Hlt.
  specialize (Hlt x (list_elem_of_lookup_2 _ _ _ Hx)). lia.
Qed.

(** X20: The context that [retrieve_documents] returns holds every hit of
    the store, also those of a site already seen: it is the stripped
    documents of the hits joined by blank lines, in their order; the
    deduplication by site only makes the sources fewer than the hits. *)
Theorem retrieve_documents_context
    (cq : list Call -> text -> Z -> res QueryResult)
    (query : text) (top_k : Z) (w w' : World) (results : QueryResult)
    (ctx : text) (srcs : list RetrievedSource) :
  cq (calls w) query top_k = Ok results ->
  retrieve_documents cq query top_k w = (Ok (ctx, srcs), w') ->
  ctx = join [10; 10]%N ((fun h => strip (fst h)) <$> hits_of results) /\
  (length srcs <= length (hits_of results))%nat.
Proof.
  intros Hcq Hr. pose proof (retrieve_documents_ok _ _ _ _ _ _ _ _ Hcq Hr) as Hpr.
  destruct (process_results_sources _ _ _ Hpr) as (_ & _ & Hctx & idx & Hinc & Hpick).
  split; [exact Hctx|].
  rewrite <- (Forall2_length _ _ _ Hpick). apply increasing_length; [exact Hinc|].
  apply Forall_forall. intros i Hi.
  apply list_elem_of_lookup in Hi as [a Ha].
  destruct (Forall2_lookup_l _ _ _ _ _ Hpick Ha) as (s & _ & meta & d & [[doc Hd] _] & _).
  apply lookup_lt_Some in Hd. exact Hd.
Qed.

Lemma retrieve_documents_context_witness :
  sample_context
  = join [10; 10]%N ((fun h => strip (fst h)) <$> hits_of sample_results) /\
  (length [dougga_source; el_jem_source] <= length (hits_of sample_results))%nat.
Proof.
  apply (retrieve_documents_context (sample_store sample_results) sample_query 5
           new_chatbot (log_call (CallQuery sample_query 5) new_chatbot)
           sample_results).
  - reflexivity.
  - vm_compute. reflexivity.
Defined.

(** *** Invariants of a chatbot *)




Lemma exchanges_length pairs : length (exchanges pairs) = (2 * length pairs)%nat.
Proof.
  unfold exchanges. induction pairs as [|p pairs IH]; simpl; [reflexivity|].
  simpl in IH. rewrite IH. lia.
Qed.

Lemma exchanges_drop pairs : forall n,
  drop (2 * n) (exchanges pairs) = exchanges (drop n pairs).
Proof.
  induction pairs as [|p pairs IH]; intros n.
  - change (exchanges []) with (@nil Message). rewrite !drop_nil. reflexivity.
  - destruct n as [|n]; [reflexivity|].
    replace (2 * S n)%nat with (S (S (2 * n))) by lia.
    simpl. apply IH.
Qed.

Lemma exchanges_snoc pairs q a :
  exchanges pairs ++ [user_turn q; assistant_turn a] = exchanges (pairs ++ [(q, a)]).
Proof.
  unfold exchanges. rewrite List.map_app, concat_app. reflexivity.
Qed.

Lemma last_n_exchanges pairs (k : Z) :
  0 <= k -> last_n (2 * k) (exchanges pairs) = exchanges (last_n k pairs).
Proof.
  intros Hk. unfold last_n. rewrite exchanges_length, <- exchanges_drop.
  f_equal. lia.
Qed.

Lemma run_op_exchanges cq rp op w :
  is_load op = false ->
  (exists pairs, conversation_history w = exchanges pairs) ->
  exists pairs, conversation_history (run_op cq rp op w) = exchanges pairs.
Proof.
  intros Hop [pairs Hp]. destruct op as [query top_k | messages |]; simpl.
  - destruct (answer cq rp query top_k w) as [r w'] eqn:Ha. simpl.
    apply answer_outcome in Ha. cbv zeta in Ha.
    destruct Ha as [(_ & _ & ->)
                   | [(_ & -> & _)
                     | (ctx & srcs & a & t & l & _ & _ & _ & _ & -> & _)]].
    + exists pairs. exact Hp.
    + exists pairs. exact Hp.
    + rewrite history_after_eq, Hp.
      fold (user_turn (sanitize_input query)). fold (assistant_turn a).
      rewrite exchanges_snoc.
      change (MAX_HISTORY_MESSAGES * 2) with (2 * MAX_HISTORY_MESSAGES).
      rewrite last_n_exchanges by (unfold MAX_HISTORY_MESSAGES; lia).
      eexists. reflexivity.
  - discriminate.
  - exists []. reflexivity.
Qed.

(** X22: As long as no history is loaded from stored messages, the history
    of a chatbot is made of whole exchanges, a question followed by its
    answer: the cut to the last [MAX_HISTORY_MESSAGES * 2] entries never
    splits an exchange, and neither does the window of the last
    [MAX_HISTORY_MESSAGES] entries sent to the model. *)
Theorem history_whole_exchanges
    (cq : list Call -> text -> Z -> res QueryResult)
    (rp : list Call -> list Message -> res (Response * Z))
    (ops : list Op) :
  forallb (fun op => negb (is_load op)) ops = true ->
  (exists pairs, conversation_history (run cq rp ops) = exchanges pairs) /\
  (exists pairs,
     last_n MAX_HISTORY_MESSAGES (conversation_history (run cq rp ops))
     = exchanges pairs).
Proof.
  intros Hops.
  assert (exists pairs, conversation_history (run cq rp ops) = exchanges pairs)
    as [pairs Hp].
  { unfold run.
    assert (forall w, (exists pairs, conversation_history w = exchanges pairs) ->
              exists pairs,
                conversation_history
                  (fold_left (fun w op => run_op cq rp op w) ops w)
                = exchanges pairs) as H.
    { induction ops as [|op ops IH]; intros w Hw; simpl; [exact Hw|].
      simpl in Hops. apply andb_true_iff in Hops as [Hop Hops].
      apply (IH Hops). apply run_op_exchanges; [|exact Hw].
      destruct (is_load op); [discriminate | reflexivity]. }
    apply H. exists []. reflexivity. }
  split; [exists pairs; exact Hp|].
  rewrite Hp. change MAX_HISTORY_MESSAGES with (2 * 3).
  rewrite last_n_exchanges by lia. eexists. reflexivity.
Qed.

Lemma history_whole_exchanges_witness :
  (exists pairs,
     conversation_history
       (run (sample_store sample_results) offline_service
          [OpAnswer (PyStr sample_query) 5; OpClearHistory;
           OpAnswer (PyStr sample_query) 5])
     = exchanges pairs) /\
  (exists pairs,
     last_n MAX_HISTORY_MESSAGES
       (conversation_history
          (run (sample_store sample_results) offline_service
             [OpAnswer (PyStr sample_query) 5; OpClearHistory;
              OpAnswer (PyStr sample_query) 5]))
     = exchanges pairs).
Proof.
  apply (history_whole_exchanges (sample_store sample_results) offline_service
           [OpAnswer (PyStr sample_query) 5; OpClearHistory;
            OpAnswer (PyStr sample_query) 5]).
  reflexivity.
Defined.

End RagExtra.

(** ** Facts about the input and the status of the service *)

Module StatusFacts.
Import Rag RagSpec RagFacts Status MoreSpec ChatSpec.

(** *** The normal form of a question *)

Lemma not_blank_last t d : last t = Some d -> is_space d = false -> ~ blank t.
Proof.
  intros Hd Hs Hb. unfold blank in Hb. rewrite Forall_forall in Hb.
  rewrite last_lookup in Hd.
  rewrite (Hb d (list_elem_of_lookup_2 _ _ _ Hd)) in Hs. discriminate.
Qed.

(** On a string that does not end with whitespace, the replacement of the
    whitespace runs gives the words joined by single spaces. *)
Lemma collapse_join (t : text) :
  (forall d, last t = Some d -> is_space d = false) ->
  collapse_from true t = join [SP] (split_from [] t) /\
  (forall cur, cur <> [] ->
     cur ++ collapse_from false t = join [SP] (split_from cur t)) /\
  (forall c, head t = Some c -> is_space c = false ->
     collapse_from false t = join [SP] (split_from [] t)).
Proof.
  induction t as [|c t IH]; intros Hlast.
  - simpl. split; [reflexivity | split].
    + intros cur Hcur. destruct cur; [congruence|]. simpl.
      rewrite app_nil_r. reflexivity.
    + intros c Hc. discriminate.
  - assert (forall d, last t = Some d -> is_space d = false) as Hlast'.
    { intros d Hd. apply Hlast. destruct t; [discriminate | exact Hd]. }
    destruct (IH Hlast') as (IH1 & IH2 & _). simpl.
    destruct (is_space c) eqn:Hc.
    + assert (split_from [] t <> []) as Hne.
      { intros Hnil. apply split_from_nil_inv in Hnil as [_ Hb].
        destruct (last t) as [d|] eqn:Hd.
        - exact (not_blank_last t d Hd (Hlast' d eq_refl) Hb).
        - apply last_None in Hd. subst t. specialize (Hlast c eq_refl). congruence. }
      split; [exact IH1 | split].
      * intros cur Hcur. destruct cur as [|x cur]; [congruence|].
        rewrite IH1. destruct (split_from [] t) eqn:Hs; [congruence|].
        simpl. reflexivity.
      * intros c0 [= <-] Hc0. congruence.
    + split; [|split].
      * rewrite <- (IH2 [c]) by discriminate. reflexivity.
      * intros cur Hcur. rewrite <- IH2 by (destruct cur; discriminate).
        rewrite <- app_assoc. reflexivity.
      * intros c0 _ _. rewrite <- (IH2 [c]) by discriminate. reflexivity.
Qed.

Lemma lstrip_head s c : head (lstrip s) = Some c -> is_space c = false.
Proof.
  induction s as [|x s IH]; simpl; [discriminate|].
  destruct (is_space x) eqn:Hx; [exact IH|]. simpl. intros [= <-]. exact Hx.
Qed.

Lemma last_rev {A} (l : list A) : last (rev l) = head l.
Proof. destruct l as [|x l]; simpl; [reflexivity | apply last_snoc]. Qed.

Lemma strip_trimmed s : trimmed (strip s).
Proof.
  unfold trimmed, strip. split.
  - intros c Hc. apply (lstrip_head s).
    destruct (rstrip_decompose (lstrip s)) as (ws & Hs & _).
    rewrite Hs. destruct (rstrip (lstrip s)); [discriminate | exact Hc].
  - intros c Hc. unfold rstrip in Hc. rewrite last_rev in Hc.
    apply (lstrip_head _ _ Hc).
Qed.

Lemma collapse_strip s : collapse_spaces (strip s) = join [SP] (split s).
Proof.
  rewrite <- (split_strip s). destruct (strip_trimmed s) as [Hhead Hlast].
  destruct (collapse_join (strip s) Hlast) as (_ & _ & H).
  unfold collapse_spaces, split. destruct (strip s) as [|c t] eqn:Hs; [reflexivity|].
  apply (H c eq_refl). apply Hhead. reflexivity.
Qed.

Lemma remove_nul_none s : NUL ∉ s -> remove_nul s = s.
Proof.
  unfold remove_nul. induction s as [|c s IH]; intros H; simpl; [reflexivity|].
  destruct (N.eqb_spec c NUL) as [-> | Hc]; simpl.
  - exfalso. apply H. left.
  - rewrite IH; [reflexivity|]. intros Hin. apply H. right. exact Hin.
Qed.

Lemma strip_elem c s : c ∈ strip s -> c ∈ s.
Proof.
  intros H. unfold strip in H.
  destruct (rstrip_decompose (lstrip s)) as (ws & Hs & _).
  destruct (lstrip_decompose s) as (ws' & Hs' & _).
  rewrite Hs'. apply elem_of_app. right. rewrite Hs. apply elem_of_app. left.
  exact H.
Qed.

Lemma strip_length s : (length (strip s) <= length s)%nat.
Proof.
  destruct (rstrip_decompose (lstrip s)) as (ws & Hs & _).
  destruct (lstrip_decompose s) as (ws' & Hs' & _).
  apply (f_equal length) in Hs, Hs'. rewrite length_app in Hs, Hs'.
  unfold strip. lia.
Qed.

Lemma sanitized_parts s :
  len (sanitize_input (PyStr s)) <= MAX_INPUT_LENGTH /\
  NUL ∉ sanitize_input (PyStr s).
Proof.
  rewrite sanitize_input_str.
  set (t := take (Z.to_nat MAX_INPUT_LENGTH) (strip s)). split.
  - unfold len, collapse_spaces.
    pose proof (collapse_from_length false (remove_nul t)) as H1.
    assert (length (remove_nul t) <= length t)%nat as H2
      by apply List.filter_length_le.
    assert (length t <= Z.to_nat MAX_INPUT_LENGTH)%nat as H3
      by (subst t; rewrite length_take; lia).
    unfold MAX_INPUT_LENGTH in *. lia.
  - intros H. apply collapse_from_elem in H as [H | [H _]]; [discriminate|].
    apply remove_nul_elem in H as [_ H]. congruence.
Qed.

(** X23: On a question without NUL whose stripped form has at most
    [MAX_INPUT_LENGTH] characters, [sanitize_input] returns the words of
    the question joined by single spaces, [' '.join(query.split())]; on
    such a question it changes nothing when applied again. *)
Theorem sanitize_input_normal_form (s : text) :
  NUL ∉ s -> len (strip s) <= MAX_INPUT_LENGTH ->
  sanitize_input (PyStr s) = join [SP] (split s) /\
  sanitize_input (PyStr (sanitize_input (PyStr s))) = sanitize_input (PyStr s).
Proof.
  assert (forall t, NUL ∉ t -> len (strip t) <= MAX_INPUT_LENGTH ->
            sanitize_input (PyStr t) = join [SP] (split t)) as Hnf.
  { intros t Hnul Hlen. rewrite sanitize_input_str.
    rewrite take_ge by (unfold len in Hlen; lia).
    rewrite remove_nul_none by (intros H; apply Hnul, strip_elem, H).
    apply collapse_strip. }
  intros Hnul Hlen. split; [apply Hnf; assumption|].
  pose proof (sanitized_parts s) as (Hl & Hn).
  rewrite (Hnf (sanitize_input (PyStr s))).
  - rewrite (Hnf s Hnul Hlen). rewrite split_join_words by apply split_words.
    reflexivity.
  - exact Hn.
  - pose proof (strip_length (sanitize_input (PyStr s))). unfold len in *. lia.
Qed.

Lemma sanitize_input_normal_form_witness :
  sanitize_input (PyStr (utf8 "  Où   est El Jem? "))
  = join [SP] (split (utf8 "  Où   est El Jem? ")) /\
  sanitize_input (PyStr (sanitize_input (PyStr (utf8 "  Où   est El Jem? "))))
  = sanitize_input (PyStr (utf8 "  Où   est El Jem? ")).
Proof.
  apply (sanitize_input_normal_form (utf8 "  Où   est El Jem? ")).
  - vm_compute. intros H. repeat (apply elem_of_cons in H as [H | H]; [discriminate H|]).
    inversion H.
  - vm_compute. discriminate.
Defined.

(** *** [check_ollama_status] *)

Lemma starts_with_spec p s : starts_with p s = true <-> exists r, s = p ++ r.
Proof.
  revert s. induction p as [|a p IH]; intros s; simpl.
  - split; [intros _; exists s; reflexivity | reflexivity].
  - destruct s as [|b s].
    + split; [discriminate | intros [r Hr]; discriminate].
    + rewrite andb_true_iff, N.eqb_eq, IH. split.
      * intros [-> [r ->]]. exists r. reflexivity.
      * intros [r [= -> ->]]. split; [reflexivity | exists r; reflexivity].
Qed.

(** [needle in hay] holds exactly when [needle] occurs in [hay]. *)
Lemma str_in_spec needle hay : str_in needle hay = true <-> contains needle hay.
Proof.
  unfold contains. induction hay as [|c hay IH]; simpl.
  - rewrite orb_false_r, starts_with_spec. split.
    + intros [r Hr]. exists [], r. exact Hr.
    + intros (l & r & H). destruct l; [exists r; exact H | discriminate].
  - rewrite orb_true_iff, starts_with_spec, IH. split.
    + intros [[r Hr] | (l & r & Hr)].
      * exists [], r. exact Hr.
      * exists (c :: l), r. simpl. rewrite Hr. reflexivity.
    + intros (l & r & H). destruct l as [|x l].
      * left. exists r. exact H.
      * right. injection H as _ H. exists l, r. exact H.
Qed.

Lemma model_names_spec models :
  match model_names models with
  | inr names => models = Some <$> names
  | inl e => e = GetOtherError (utf8 "'name'") /\ None ∈ models
  end.
Proof.
  induction models as [|[name|] rest IH]; simpl.
  - reflexivity.
  - destruct (model_names rest) as [e|names].
    + destruct IH as [-> Hin]. split; [reflexivity | right; exact Hin].
    + rewrite IH. reflexivity.
  - split; [reflexivity | left].
Qed.

(** A server that has [llama3.1:8b] is reported to have [llama3]. *)
Lemma sample_status :
  check_ollama_status (inr sample_tags)
  = StatusOnline [utf8 "mistral:latest"; utf8 "llama3.1:8b"] LLM_MODEL true.
Proof. vm_compute. reflexivity. Qed.

(** X24: [check_ollama_status] reports [offline] exactly when the request
    raised a [ConnectionError]; a response with another status than 200 is
    reported as the error [HTTP <status>]; and when it reports [online],
    the response had status 200, the models are the names of its body in
    order, the current model is [LLM_MODEL], and [model_available] holds
    exactly when [LLM_MODEL] occurs as a substring of one of the names. *)
Theorem check_ollama_status_cases (outcome : get_exn + TagsResponse) :
  (forall message,
     check_ollama_status outcome = StatusOffline message <->
     (exists str_e, outcome = inl (GetConnectionError str_e)) /\
     message = utf8 "Ollama n'est pas en cours d'exécution") /\
  (forall response,
     outcome = inr response -> tags_status response <> 200 ->
     check_ollama_status outcome
     = StatusError (utf8 "HTTP " ++ str_int (tags_status response))) /\
  (forall names current available,
     check_ollama_status outcome = StatusOnline names current available ->
     (exists response body,
        outcome = inr response /\ tags_status response = 200 /\
        tags_json response = inr body /\ default [] body = Some <$> names) /\
     current = LLM_MODEL /\
     (available = true <->
      exists name, name ∈ names /\ contains LLM_MODEL name)).
Proof.
  unfold check_ollama_status, check_body. split; [|split].
  - intros message. destruct outcome as [[str_e | str_e] | response].
    + split.
      * intros [= <-]. split; [exists str_e; reflexivity | reflexivity].
      * intros [_ ->]. reflexivity.
    + split; [discriminate | intros [[s [= ]] _]].
    + split; [|intros [[s [= ]] _]].
      destruct (tags_status response =? 200); [|discriminate].
      destruct (tags_json response) as [e | body]; [discriminate|].
      pose proof (model_names_spec (default [] body)) as Hm.
      destruct (model_names (default [] body)) as [e | names]; [|discriminate].
      destruct Hm as [-> _]. discriminate.
  - intros response -> Hstatus.
    destruct (Z.eqb_spec (tags_status response) 200) as [H | _]; [contradiction|].
    reflexivity.
  - intros names current available.
    destruct outcome as [[str_e | str_e] | response]; try discriminate.
    destruct (Z.eqb_spec (tags_status response) 200) as [Hstatus | _];
      [|discriminate].
    destruct (tags_json response) as [e | body] eqn:Hjson; [discriminate|].
    pose proof (model_names_spec (default [] body)) as Hm.
    destruct (model_names (default [] body)) as [e | names0].
    + destruct Hm as [-> _]. discriminate.
    + intros [= <- <- <-]. split; [|split; [reflexivity|]].
      * exists response, body. auto.
      * rewrite existsb_exists. split.
        -- intros (name & Hin & Hs). exists name.
           split; [apply list_elem_of_In, Hin | apply str_in_spec, Hs].
        -- intros (name & Hin & Hs). exists name.
           split; [apply list_elem_of_In, Hin | apply str_in_spec, Hs].
Qed.

End StatusFacts.

(** ** Facts about the chat titles *)

Module AppFacts.
Import App MoreSpec.

Lemma len_dots : len (utf8 "...") = 3.
Proof. reflexivity. Qed.

Lemma prefix_to_nonneg {A} (k : Z) (l : list A) :
  0 <= k -> prefix_to k l = take (Z.to_nat k) l.
Proof.
  intros H. unfold prefix_to. destruct (Z.leb_spec 0 k); [reflexivity | lia].
Qed.

(** X25: For [max_len] of at least 3, as the default 30 is,
    [truncate_title] returns a title of at most [max_len] characters: the
    title itself when it is that short, else its first [max_len - 3]
    characters followed by three dots. *)
Theorem truncate_title_bound (title : text) (max_len : Z) :
  3 <= max_len ->
  len (truncate_title title max_len) <= max_len /\
  (len title <= max_len -> truncate_title title max_len = title) /\
  (max_len < len title ->
   truncate_title title max_len
   = take (Z.to_nat (max_len - 3)) title ++ utf8 "...").
Proof.
  intros Hmax. unfold truncate_title, prefix_to.
  destruct (Z.leb_spec 0 (max_len - 3)) as [_ | H]; [|lia].
  destruct (Z.ltb_spec max_len (len title)) as [Hlong | Hshort].
  - split; [|split; [lia | reflexivity]].
    rewrite TextFacts.len_app, len_dots. unfold len in *. rewrite length_take. lia.
  - split; [exact Hshort | split; [reflexivity | lia]].
Qed.

Lemma truncate_title_bound_witness :
  len (truncate_title (utf8 "Les mosaïques du musée du Bardo à Tunis") 30) <= 30 /\
  (len (utf8 "Les mosaïques du musée du Bardo à Tunis") <= 30 ->
   truncate_title (utf8 "Les mosaïques du musée du Bardo à Tunis") 30
   = utf8 "Les mosaïques du musée du Bardo à Tunis") /\
  (30 < len (utf8 "Les mosaïques du musée du Bardo à Tunis") ->
   truncate_title (utf8 "Les mosaïques du musée du Bardo à Tunis") 30
   = take (Z.to_nat (30 - 3)) (utf8 "Les mosaïques du musée du Bardo à Tunis")
     ++ utf8 "...").
Proof.
  apply (truncate_title_bound (utf8 "Les mosaïques du musée du Bardo à Tunis") 30).
  lia.
Defined.

(** X26: The title of a chat in the sidebar, from its first question: the
    title made from the question is stored unchanged, since it has at most
    53 characters, and the sidebar shows the question itself when it has at
    most 30 characters, else its first 27 characters followed by three
    dots. *)
Theorem sidebar_title (query : text) :
  len (chat_title query) <= 53 /\
  stored_title (chat_title query) = chat_title query /\
  truncate_title (stored_title (chat_title query)) 30
  = if len query <=? 30 then query else take 27 query ++ utf8 "...".
Proof.
  assert (len (chat_title query) <= 53) as Hlen.
  { unfold chat_title. rewrite prefix_to_nonneg by lia.
    destruct (Z.ltb_spec 50 (len query)) as [H | H]; [|lia].
    rewrite TextFacts.len_app, len_dots. unfold len. rewrite length_take. lia. }
  assert (stored_title (chat_title query) = chat_title query) as Hstored.
  { unfold stored_title. rewrite prefix_to_nonneg by lia.
    apply take_ge. unfold len in Hlen. lia. }
  split; [exact Hlen | split; [exact Hstored|]]. rewrite Hstored.
  unfold truncate_title, chat_title. rewrite !prefix_to_nonneg by lia.
  change (Z.to_nat (30 - 3)) with 27%nat. change (Z.to_nat 50) with 50%nat.
  destruct (Z.ltb_spec 50 (len query)) as [H50 | H50].
  - rewrite TextFacts.len_app, len_dots.
    assert (len (take 50 query) = 50) as ->
      by (unfold len in *; rewrite length_take; lia).
    change (30 <? 50 + 3) with true. cbv iota.
    destruct (Z.leb_spec (len query) 30) as [H30 | _]; [lia|].
    rewrite take_app_le by (rewrite length_take; unfold len in *; lia).
    rewrite take_take. reflexivity.
  - destruct (Z.ltb_spec 30 (len query)) as [H30 | H30];
      destruct (Z.leb_spec (len query) 30); try lia; reflexivity.
Qed.

End AppFacts.
